(** * Repeat-Runner: the macro resolution and execution engine

    A shallow embedding of [repeat_runner/macros.py], [repeat_runner/logger.py]
    and [repeat_runner/executor.py], and the properties of the engine that
    the specification states.

    Conventions of the embedding.
    - A Python value loaded from the YAML source is a [pyval]; a mapping is an
      association list in insertion order, its keys are strings, and a key
      is looked up at its first entry.
    - A Python [str] is a [string] whose characters are code points below 256.
    - [sys.exit(c)] and an exception that nothing catches end the run: they
      are outcomes ([Exited], [Raised]) that every caller passes on.
    - The command executor ([subprocess.run]), the macro file on disk, the
      clock, the process environment, [str()] on a value and the iteration
      order of a Python [set] are parameters of the engine. *)

From Stdlib Require Import ZArith Ascii String.
From stdpp Require Import base strings list gmap pretty.

Open Scope Z_scope.
Open Scope string_scope.
Open Scope list_scope.

(** * Python values *)

#[warnings="-register-all"]
Inductive pyval : Type :=
| PNone
| PBool (b : bool)
| PInt (z : Z)
| PStr (s : string)
| PList (l : list pyval)
| PDict (d : list (string * pyval)).

(** [type(v).__name__] *)
Definition type_name (v : pyval) : string :=
  match v with
  | PNone => "NoneType"
  | PBool _ => "bool"
  | PInt _ => "int"
  | PStr _ => "str"
  | PList _ => "list"
  | PDict _ => "dict"
  end.

Definition is_str (v : pyval) : bool :=
  match v with PStr _ => true | _ => false end.

(** [d[k]], [None] standing for [KeyError]. *)
Fixpoint dict_get (k : string) (d : list (string * pyval)) : option pyval :=
  match d with
  | [] => None
  | (k', v) :: d' => if String.eqb k k' then Some v else dict_get k d'
  end.

(** [k in d] *)
Definition dict_has (k : string) (d : list (string * pyval)) : bool :=
  match dict_get k d with Some _ => true | None => false end.

(** [a == b] on loaded values: [bool] is a subclass of [int], sequences
    compare element by element, mappings compare as sets of items. *)
Fixpoint py_eq (a b : pyval) {struct a} : bool :=
  match a, b with
  | PNone, PNone => true
  | PBool x, PBool y => Bool.eqb x y
  | PBool x, PInt z | PInt z, PBool x => Z.eqb (if x then 1 else 0) z
  | PInt x, PInt y => Z.eqb x y
  | PStr x, PStr y => String.eqb x y
  | PList l1, PList l2 =>
      (fix go (l1 l2 : list pyval) {struct l1} : bool :=
         match l1, l2 with
         | [], [] => true
         | x :: l1', y :: l2' => py_eq x y && go l1' l2'
         | _, _ => false
         end) l1 l2
  | PDict d1, PDict d2 =>
      Nat.eqb (length d1) (length d2) &&
      (fix go (d1 : list (string * pyval)) {struct d1} : bool :=
         match d1 with
         | [] => true
         | (k, v) :: d1' =>
             match dict_get k d2 with
             | Some v' => py_eq v v'
             | None => false
             end && go d1'
         end) d1
  | _, _ => false
  end.

(** Truth value of a loaded value: [if not macros:]. *)
Definition py_truth (v : pyval) : bool :=
  match v with
  | PNone => false
  | PBool b => b
  | PInt z => negb (Z.eqb z 0)
  | PStr s => negb (String.eqb s EmptyString)
  | PList l => negb (Nat.eqb (length l) 0)
  | PDict d => negb (Nat.eqb (length d) 0)
  end.

(** [x in l] *)
Definition list_contains (x : pyval) (l : list pyval) : bool :=
  existsb (py_eq x) l.

(** [l.index(x)]: the position of the first element equal to [x]. *)
Fixpoint list_index (x : pyval) (l : list pyval) : nat :=
  match l with
  | [] => 0
  | y :: l' => if py_eq y x then 0%nat else S (list_index x l')
  end.

(** * Strings *)

(** [c.isspace()] for a code point below 256. *)
Definition is_space (c : ascii) : bool :=
  let n := nat_of_ascii c in
  ((9 <=? n)%nat && (n <=? 13)%nat) || ((28 <=? n)%nat && (n <=? 32)%nat)
  || (n =? 133)%nat || (n =? 160)%nat.

Fixpoint lstrip (s : string) : string :=
  match s with
  | EmptyString => EmptyString
  | String c s' => if is_space c then lstrip s' else s
  end.

Fixpoint rstrip (s : string) : string :=
  match s with
  | EmptyString => EmptyString
  | String c s' =>
      match rstrip s' with
      | EmptyString => if is_space c then EmptyString else String c EmptyString
      | r => String c r
      end
  end.

(** [s.strip()] *)
Definition strip (s : string) : string := rstrip (lstrip s).

(** Truth value of a string: [if s:]. *)
Definition nonempty (s : string) : bool :=
  match s with EmptyString => false | _ => true end.

(** [sep.join(l)] *)
Fixpoint join (sep : string) (l : list string) : string :=
  match l with
  | [] => EmptyString
  | [x] => x
  | x :: l' => x +:+ sep +:+ join sep l'
  end.

(** [needle in hay] for two strings. *)
Fixpoint is_prefix (p s : string) : bool :=
  match p, s with
  | EmptyString, _ => true
  | String a p', String b s' => Ascii.eqb a b && is_prefix p' s'
  | _, _ => false
  end.

Fixpoint is_substring (needle hay : string) : bool :=
  is_prefix needle hay ||
  match hay with
  | EmptyString => false
  | String _ hay' => is_substring needle hay'
  end.

(** * macros.py *)

Inductive result (E A : Type) : Type :=
| Ok (a : A)
| Raise (e : E).
Arguments Ok {E A} a.
Arguments Raise {E A} e.

(** The [ValueError]s of [validate_macro_definition], one constructor per
    [raise], with the values its message interpolates. *)
Inductive value_error : Type :=
| NotDictOrList (macro_name ty : string)
| MissingCommands (macro_name : string)
| CommandsNotList (macro_name ty : string)
| EnvNotDict (macro_name ty : string)
| EnvValueNotStr (key macro_name ty : string).

(** The loop over [macro_def['env'].items()]. *)
Fixpoint check_env_values (macro_name : string) (items : list (string * pyval))
  : result value_error unit :=
  match items with
  | [] => Ok tt
  | (key, value) :: items' =>
      if is_str value then check_env_values macro_name items'
      else Raise (EnvValueNotStr key macro_name (type_name value))
  end.

Definition validate_macro_definition (macro_name : string) (macro_def : pyval)
  : result value_error bool :=
  match macro_def with
  | PDict d =>
      match dict_get "commands" d with
      | None => Raise (MissingCommands macro_name)
      | Some (PList _) =>
          match dict_get "env" d with
          | None => Ok true
          | Some (PDict e) =>
              match check_env_values macro_name e with
              | Ok _ => Ok true
              | Raise err => Raise err
              end
          | Some v => Raise (EnvNotDict macro_name (type_name v))
          end
      | Some v => Raise (CommandsNotList macro_name (type_name v))
      end
  | PList _ => Ok true
  | v => Raise (NotDictOrList macro_name (type_name v))
  end.

(** The macro a [ValueError] of [validate_macro_definition] names. *)
Definition error_macro (e : value_error) : string :=
  match e with
  | NotDictOrList n _ | MissingCommands n | CommandsNotList n _
  | EnvNotDict n _ | EnvValueNotStr _ n _ => n
  end.

Definition is_list (v : pyval) : bool :=
  match v with PList _ => true | _ => false end.

Definition is_dict (v : pyval) : bool :=
  match v with PDict _ => true | _ => false end.

(** The malformed definitions as the specification lists them: neither a
    sequence nor a structured object; or a structured object whose
    [commands] is missing or not a sequence, whose [env] is present but not
    a mapping, or whose [env] has a value that is not a string. *)
Definition malformed_definition (macro_def : pyval) : Prop :=
  (is_list macro_def = false ∧ is_dict macro_def = false)
  ∨ ∃ d, macro_def = PDict d
      ∧ (dict_get "commands" d = None
         ∨ (∃ v, dict_get "commands" d = Some v ∧ is_list v = false)
         ∨ (∃ v, dict_get "env" d = Some v ∧ is_dict v = false)
         ∨ (∃ e k v, dict_get "env" d = Some (PDict e)
              ∧ (k, v) ∈ e ∧ is_str v = false)).

(** What is at the path [runner.yaml]. *)
Inductive file_state : Type :=
| Absent
| Unreadable (detail : string)
| BadYaml (detail : string)
| Doc (data : pyval).

Inductive exception : Type :=
| FileNotFoundError
| PermissionError (detail : string)
| ValueError (detail : string)
| TypeError.

(** [type(e).__name__] and [str(e)] *)
Definition exception_name (e : exception) : string :=
  match e with
  | FileNotFoundError => "FileNotFoundError"
  | PermissionError _ => "PermissionError"
  | ValueError _ => "ValueError"
  | TypeError => "TypeError"
  end.

Definition exception_text (e : exception) : string :=
  match e with
  | FileNotFoundError => "Macro file runner.yaml not found"
  | PermissionError detail | ValueError detail => detail
  | TypeError => EmptyString
  end.

(** [load_macros()] with its default path. *)
Definition load_macros (file : file_state) : result exception pyval :=
  match file with
  | Absent => Raise FileNotFoundError
  | Unreadable detail => Raise (PermissionError detail)
  | BadYaml detail => Raise (ValueError ("Invalid YAML in macro file: " +:+ detail))
  | Doc PNone => Ok (PDict [])
  | Doc (PDict d) =>
      match dict_get "macros" d with
      | Some v => Ok v
      | None => Ok (PDict d)
      end
  | Doc _ => Raise (ValueError "Invalid macro file format: root must be a dictionary")
  end.

(** * logger.py *)

(** The attributes of a [Logger] that the engine reads: the two mode flags
    and whether a log file is open. *)
Record Logger : Type := {
  dry_run : bool;
  verbose : bool;
  file_handle : bool
}.

(** The texts the engine hands to the logger, one constructor per f-string
    of [execute_macro], with the values it interpolates. *)
Inductive message : Type :=
| CircularCall (macro_name : string) (stack : list string)
| ExecutingMacro (macro_name : string)
| InvalidDefinition (e : value_error)
| InvalidFormat (macro_name : string)
| CallingMacro (called : pyval)
| MacroNotFound (called : pyval)
| SkippingMissing (called : pyval)
| RunningCommand (command_index total_commands : nat) (command : pyval)
| DryRunWould (command : pyval)
| CommandOutput (stdout : string)
| CommandErrors (stderr : string)
| CommandFailed (returncode : Z) (command : pyval)
| StoppingExecution
| ContinuingAfterFailure (command : pyval)
| CommandCompleted (command : pyval)
| ErrorExecuting (command : pyval) (detail : string)
| ContinuingAfterException (command : pyval)
| MacroCompleted (macro_name : string)
| NoMacrosFound
| RunnerYamlNotFound
| InvalidRunnerYaml (detail : string)
| UnexpectedLoadError (e : exception)
| MacroNameRequired.

(** What the run does that an observer can see, in order: the calls of
    [logger.info], [logger.error], [logger.warn] and [logger.log_command],
    and the invocations of the command executor. *)
Inductive event : Type :=
| Info (m : message)
| Error (m : message)
| Warn (m : message)
| LogCommand (timestamp : string) (command : pyval) (output error : string)
| Invoke (command : pyval) (env : gmap string string).

Inductive log_tag : Type := EXECUTED | OUTPUT | ERROR.

Definition tag_text (t : log_tag) : string :=
  match t with EXECUTED => "EXECUTED" | OUTPUT => "OUTPUT" | ERROR => "ERROR" end.

(** The lines of the block [Logger.log_command] builds: the [EXECUTED] line,
    then an [OUTPUT] line when [output] is true, then an [ERROR] line when
    [error] is true. *)
Definition log_block (command output error : string) : list (log_tag * string) :=
  (EXECUTED, command)
  :: (if nonempty output then [(OUTPUT, output)] else [])
  ++ (if nonempty error then [(ERROR, error)] else []).

Definition log_line (timestamp : string) (l : log_tag * string) : string :=
  "[" +:+ timestamp +:+ "] " +:+ tag_text l.1 +:+ ": " +:+ l.2.

Definition newline : string := String (ascii_of_nat 10) EmptyString.

(** [log_entry] of [Logger.log_command]. *)
Definition log_entry (timestamp command output error : string) : string :=
  join newline (log_line timestamp <$> log_block command output error).

Definition has_tag (t : log_tag) (block : list (log_tag * string)) : bool :=
  existsb (λ l, match l.1, t with
                | EXECUTED, EXECUTED | OUTPUT, OUTPUT | ERROR, ERROR => true
                | _, _ => false
                end) block.

(** * executor.py *)

(** What [subprocess.run] gives back: a finished process, or the text of
    the exception it raised. *)
Inductive exec_result : Type :=
| Completed (returncode : Z) (stdout stderr : string)
| ExecException (detail : string).

(** How a call of [execute_macro] ends. [Unmodelled] marks the one path the
    embedding does not follow (see [lookup_macro]); [OutOfFuel] is the
    embedding's own bound on the recursion depth. *)
Inductive outcome : Type :=
| Returned
| Exited (code : Z)
| Raised (e : exception)
| Unmodelled
| OutOfFuel.

(** [isinstance(command, dict) and 'call' in command] *)
Definition is_call (command : pyval) : bool :=
  match command with
  | PDict d => dict_has "call" d
  | _ => false
  end.

(** [command['call']] of a command for which [is_call] holds. *)
Definition call_target (command : pyval) : pyval :=
  match command with
  | PDict d => default PNone (dict_get "call" d)
  | _ => PNone
  end.

(** [[c for c in commands if not (isinstance(c, dict) and 'call' in c)]] *)
Definition actual_commands (commands : list pyval) : list pyval :=
  List.filter (λ c, negb (is_call c)) commands.

(** [actual_commands.index(command) + 1 if command in actual_commands else i+1] *)
Definition command_index (commands : list pyval) (i : nat) (command : pyval) : nat :=
  if list_contains command (actual_commands commands)
  then (list_index command (actual_commands commands) + 1)%nat
  else (i + 1)%nat.

Definition total_commands (commands : list pyval) : nat :=
  length (actual_commands commands).

(** [env.update(macro_env)]; validation has made every value a string. *)
Definition env_update (env : gmap string string) (macro_env : list (string * pyval))
  : gmap string string :=
  foldl (λ e kv, match kv.2 with PStr s => <[kv.1 := s]> e | _ => e end) env macro_env.

(** [macro_definition.get('commands', [])], a list once validated. *)
Definition get_commands (d : list (string * pyval)) : list pyval :=
  match dict_get "commands" d with
  | Some (PList l) => l
  | _ => []
  end.

(** [macro_definition.get('env', {})], a mapping once validated. *)
Definition get_env (d : list (string * pyval)) : list (string * pyval) :=
  match dict_get "env" d with
  | Some (PDict e) => e
  | _ => []
  end.

(** [result.stdout.strip() if result.stdout.strip() else "(no output)"] *)
Definition logged_output (stdout : string) : string :=
  if nonempty (strip stdout) then strip stdout else "(no output)".

(** [result.stderr.strip()] if that is true, else the empty string *)
Definition logged_error (stderr : string) : string :=
  if nonempty (strip stderr) then strip stderr else EmptyString.

Inductive lookup_result : Type :=
| NotFound
| Found (name : string) (def : pyval)
| LookupRaises (e : exception)
| LookupUnmodelled.

(** [all_macros is None or called not in all_macros], then
    [all_macros[called]]. A table that is a mapping or [None] is followed in
    full. For a table of another shape ([macros:] holding a scalar or a
    sequence) the membership test and the subscript are followed too, but
    for one case: a sequence that holds the called value and is subscripted
    by it as an integer, which would go on with an integer as the macro
    name, is left [LookupUnmodelled]. *)
Definition lookup_macro (all_macros called : pyval) : lookup_result :=
  match all_macros with
  | PNone => NotFound
  | PDict d =>
      match called with
      | PStr s =>
          match dict_get s d with
          | Some def => Found s def
          | None => NotFound
          end
      | PList _ | PDict _ => LookupRaises TypeError
      | _ => NotFound
      end
  | PStr t =>
      match called with
      | PStr s => if is_substring s t then LookupRaises TypeError else NotFound
      | _ => LookupRaises TypeError
      end
  | PBool _ | PInt _ => LookupRaises TypeError
  | PList l =>
      if list_contains called l then
        match called with
        | PBool _ | PInt _ => LookupUnmodelled
        | _ => LookupRaises TypeError
        end
      else NotFound
  end.

(** The names that [lookup_macro] can find in what [load_macros] gives
    for a file. *)
Definition table_names (file : file_state) : gset string :=
  match load_macros file with
  | Ok (PDict d) => list_to_set d.*1
  | _ => ∅
  end.

Section Engine.

(** The outside of the engine. *)
Context {W : Type}.
(** [subprocess.run(command, shell=True, ..., env=env)] *)
Variable run_cmd : pyval → gmap string string → W → exec_result * W.
(** the file [runner.yaml] in the working directory *)
Variable runner_yaml : W → file_state.
(** [datetime.now().strftime(...)] *)
Variable now : W → string.
(** [os.environ] *)
Variable environ : gmap string string.
(** the order in which a [set] of names is iterated *)
Variable set_iter : gset string → list string.

Record state : Type := {
  executed_macros : gset string;
  world : W;
  trace : list event
}.

Definition log (e : event) (st : state) : state :=
  {| executed_macros := executed_macros st; world := world st;
     trace := trace st ++ [e] |}.

Definition set_world (w : W) (st : state) : state :=
  {| executed_macros := executed_macros st; world := w; trace := trace st |}.

Definition set_stack (s : gset string) (st : state) : state :=
  {| executed_macros := s; world := world st; trace := trace st |}.

(** [Logger.log_command(command, output, error)] *)
Definition log_command (command : pyval) (output error : string) (st : state) : state :=
  log (LogCommand (now (world st)) command output error) st.

Variable logger : Logger.
Variable continue_on_error : bool.

(** The [else] branch of the loop body: one literal command. *)
Definition run_literal (commands : list pyval) (env : gmap string string)
    (i : nat) (command : pyval) (st : state) : outcome * state :=
  let st := log (Info (RunningCommand (command_index commands i command)
                         (total_commands commands) command)) st in
  if dry_run logger then
    (Returned, log (Info (DryRunWould command)) st)
  else
    let (result, w) := run_cmd command env (world st) in
    let st := set_world w (log (Invoke command env) st) in
    match result with
    | Completed returncode stdout stderr =>
        let st := log_command command (logged_output stdout) (logged_error stderr) st in
        let st :=
          if verbose logger then
            let st := log (Info (CommandOutput stdout)) st in
            if nonempty stderr then log (Error (CommandErrors stderr)) st else st
          else st in
        if negb (Z.eqb returncode 0) then
          let st := log (Error (CommandFailed returncode command)) st in
          let st := if nonempty stderr then log (Error (CommandErrors stderr)) st else st in
          if negb continue_on_error then
            (Exited returncode, log (Error StoppingExecution) st)
          else
            (Returned, log (Warn (ContinuingAfterFailure command)) st)
        else
          (Returned, log (Info (CommandCompleted command)) st)
    | ExecException detail =>
        let st := log_command command EmptyString detail st in
        let st := log (Error (ErrorExecuting command detail)) st in
        if negb continue_on_error then (Exited 1, st)
        else (Returned, log (Warn (ContinuingAfterException command)) st)
    end.

(** The [if] branch of the loop body: one macro call; [rec] is the
    recursive call of [execute_macro]. *)
Definition run_call (rec : string → pyval → state → outcome * state)
    (command : pyval) (st : state) : outcome * state :=
  let called_macro_name := call_target command in
  let st := log (Info (CallingMacro called_macro_name)) st in
  match load_macros (runner_yaml (world st)) with
  | Raise e => (Raised e, st)
  | Ok all_macros =>
      match lookup_macro all_macros called_macro_name with
      | LookupRaises e => (Raised e, st)
      | LookupUnmodelled => (Unmodelled, st)
      | NotFound =>
          let st := log (Error (MacroNotFound called_macro_name)) st in
          if negb continue_on_error then (Exited 1, st)
          else (Returned, log (Warn (SkippingMissing called_macro_name)) st)
      | Found name called_macro_def => rec name called_macro_def st
      end
  end.

Definition run_step (rec : string → pyval → state → outcome * state)
    (commands : list pyval) (env : gmap string string)
    (i : nat) (command : pyval) (st : state) : outcome * state :=
  if is_call command then run_call rec command st
  else run_literal commands env i command st.

(** [for i, command in enumerate(commands)], from position [i] on. *)
Fixpoint run_commands (rec : string → pyval → state → outcome * state)
    (commands : list pyval) (env : gmap string string)
    (i : nat) (rest : list pyval) (st : state) : outcome * state :=
  match rest with
  | [] => (Returned, st)
  | command :: rest' =>
      match run_step rec commands env i command st with
      | (Returned, st') => run_commands rec commands env (S i) rest' st'
      | stop => stop
      end
  end.

(** [commands] and [env] of a validated definition; [None] is the
    [else] branch that reports an invalid format. *)
Definition normalize (macro_definition : pyval)
  : option (list pyval * gmap string string) :=
  match macro_definition with
  | PDict d => Some (get_commands d, env_update environ (get_env d))
  | PList l => Some (l, environ)
  | _ => None
  end.

Fixpoint execute_macro (fuel : nat) (macro_name : string) (macro_definition : pyval)
    (st : state) : outcome * state :=
  match fuel with
  | O => (OutOfFuel, st)
  | S fuel' =>
      if decide (macro_name ∈ executed_macros st) then
        (Exited 1,
         log (Error (CircularCall macro_name (set_iter (executed_macros st)))) st)
      else
        let st := set_stack ({[macro_name]} ∪ executed_macros st) st in
        let st := log (Info (ExecutingMacro macro_name)) st in
        match validate_macro_definition macro_name macro_definition with
        | Raise e => (Exited 1, log (Error (InvalidDefinition e)) st)
        | Ok _ =>
            match normalize macro_definition with
            | None => (Exited 1, log (Error (InvalidFormat macro_name)) st)
            | Some (commands, env) =>
                match run_commands (execute_macro fuel') commands env 0 commands st with
                | (Returned, st) =>
                    let st := set_stack (executed_macros st ∖ {[macro_name]}) st in
                    (Returned, log (Info (MacroCompleted macro_name)) st)
                | stop => stop
                end
            end
        end
  end.

(** runner.py, [main] for the [run] command: the mapping is loaded once,
    the macro is looked up in it, and [execute_macro] starts with a fresh
    set of names. *)
Definition main_run (fuel : nat) (macro_name : option string) (st : state)
  : outcome * state :=
  match load_macros (runner_yaml (world st)) with
  | Raise FileNotFoundError => (Exited 1, log (Error RunnerYamlNotFound) st)
  | Raise (ValueError detail) => (Exited 1, log (Error (InvalidRunnerYaml detail)) st)
  | Raise e => (Exited 1, log (Error (UnexpectedLoadError e)) st)
  | Ok macros =>
      let st := if py_truth macros then st else log (Warn NoMacrosFound) st in
      match macro_name with
      | None | Some EmptyString => (Exited 2, log (Error MacroNameRequired) st)
      | Some name =>
          match lookup_macro macros (PStr name) with
          | NotFound => (Exited 1, log (Error (MacroNotFound (PStr name))) st)
          | LookupRaises e => (Raised e, st)
          | LookupUnmodelled => (Unmodelled, st)
          | Found name macro => execute_macro fuel name macro (set_stack ∅ st)
          end
      end
  end.


(** The events of a trace that are invocations of the command executor. *)
Definition invocations (t : list event) : list (pyval * gmap string string) :=
  omap (λ e, match e with Invoke c env => Some (c, env) | _ => None end) t.

(** The events that only a command handed to the executor produces: the
    invocation, its log block, and the reports of its failure. *)
Definition is_executor_event (e : event) : bool :=
  match e with
  | Invoke _ _ | LogCommand _ _ _ _ => true
  | Error (CommandFailed _ _) | Error (CommandErrors _)
  | Error StoppingExecution | Error (ErrorExecuting _ _) => true
  | _ => false
  end.

Definition executor_events (t : list event) : list event :=
  List.filter is_executor_event t.

(** The reports of an invalid definition of the macro [name]. *)
Definition blames (name : string) (e : event) : bool :=
  match e with
  | Error (InvalidDefinition err) => String.eqb (error_macro err) name
  | _ => false
  end.

Definition validation_errors (name : string) (t : list event) : list event :=
  List.filter (blames name) t.

(** The [index/total] pairs of the progress lines of a trace. *)
Definition progress (t : list event) : list (nat * nat) :=
  omap (λ e, match e with
             | Info (RunningCommand k n _) => Some (k, n)
             | _ => None
             end) t.

(** The names of a table that are not on the stack: a bound on the depth
    of the calls still to come. *)
Definition budget (names : gset string) (st : state) : nat :=
  size (names ∖ executed_macros st).

(** A recursive call that leaves the stack as it found it when it returns. *)
Definition restores (rec : string → pyval → state → outcome * state) : Prop :=
  ∀ n d st st', rec n d st = (Returned, st') →
    executed_macros st' = executed_macros st.

(** A recursive call that adds no executor event to the trace. *)
Definition quiet (rec : string → pyval → state → outcome * state) : Prop :=
  ∀ n d st, executor_events (trace (rec n d st).2) = executor_events (trace st).

(** Below a macro that is on the stack, no call reports its definition
    as invalid. *)
Definition blameless (name : string)
    (rec : string → pyval → state → outcome * state) : Prop :=
  ∀ n d st, name ∈ executed_macros st →
    validation_errors name (trace (rec n d st).2) = validation_errors name (trace st).

End Engine.

(** * The texts of the messages and of the log file *)

Section Rendering.

(** [str(v)], as an f-string interpolates a value. *)
Variable py_str : pyval → string.

(** [str(e)] for the [ValueError]s of [validate_macro_definition]. *)
Definition value_error_text (e : value_error) : string :=
  match e with
  | NotDictOrList n ty =>
      "Macro '" +:+ n +:+ "' must be a dictionary or list, got " +:+ ty
  | MissingCommands n =>
      "Macro '" +:+ n +:+ "' must have 'commands' key. Valid keys are: 'commands', 'env'"
  | CommandsNotList n ty =>
      "Macro '" +:+ n +:+ "' commands must be a list, got " +:+ ty
  | EnvNotDict n ty =>
      "Macro '" +:+ n +:+ "' environment variables must be a dictionary, got " +:+ ty
  | EnvValueNotStr k n ty =>
      "Environment variable '" +:+ k +:+ "' in macro '" +:+ n
      +:+ "' must be a string, got " +:+ ty
  end.

(** The chain of the circular-call message:
    [' -> '.join(executed_macros)], then [" -> "] and the name. *)
Definition call_chain (stack : list string) (macro_name : string) : string :=
  join " -> " stack +:+ " -> " +:+ macro_name.

Definition render (m : message) : string :=
  match m with
  | CircularCall n stack =>
      "Circular macro call detected in macro '" +:+ n +:+ "'. Call stack: "
      +:+ call_chain stack n
  | ExecutingMacro n => "Executing macro: " +:+ n
  | InvalidDefinition e => "Invalid macro definition: " +:+ value_error_text e
  | InvalidFormat n => "Invalid macro definition format for " +:+ n
  | CallingMacro c => "Calling macro: " +:+ py_str c
  | MacroNotFound c => "Macro '" +:+ py_str c +:+ "' not found"
  | SkippingMissing c => "Skipping missing macro call: " +:+ py_str c
  | RunningCommand k n c =>
      "Running command [" +:+ pretty k +:+ "/" +:+ pretty n +:+ "]: " +:+ py_str c
  | DryRunWould c => "[DRY RUN] Would execute: " +:+ py_str c
  | CommandOutput out => "Command output:" +:+ newline +:+ out
  | CommandErrors err => "Command errors:" +:+ newline +:+ err
  | CommandFailed rc c =>
      "Command failed with return code " +:+ pretty rc +:+ ": " +:+ py_str c
  | StoppingExecution => "Stopping execution due to command failure."
  | ContinuingAfterFailure c => "Continuing after command failure: " +:+ py_str c
  | CommandCompleted c => "Command completed successfully: " +:+ py_str c
  | ErrorExecuting c detail =>
      "Error executing command '" +:+ py_str c +:+ "': " +:+ detail
  | ContinuingAfterException c =>
      "Continuing after exception for command: " +:+ py_str c
  | MacroCompleted n => "Macro '" +:+ n +:+ "' completed successfully"
  | NoMacrosFound => "No macros found in runner.yaml file."
  | RunnerYamlNotFound =>
      "runner.yaml not found. Please create a runner.yaml file in the current directory."
  | InvalidRunnerYaml detail => "Invalid macro definition in runner.yaml: " +:+ detail
  | UnexpectedLoadError e =>
      "Unexpected error loading macros: " +:+ exception_name e +:+ ": " +:+ exception_text e
  | MacroNameRequired => "Macro name is required for run command"
  end.

(** What one event appends to the open log file: the formatted message of
    [info], [error] and [warn], the block of [log_command]. *)
Definition file_record (e : event) : list string :=
  match e with
  | Info m => ["[INFO] " +:+ render m]
  | Error m => ["[ERROR] " +:+ render m]
  | Warn m => ["[WARNING] " +:+ render m]
  | LogCommand ts c output error => [log_entry ts (py_str c) output error]
  | Invoke _ _ => []
  end.

Definition log_file (logger : Logger) (t : list event) : list string :=
  if file_handle logger then t ≫= file_record else [].

End Rendering.

(** * logger.py: the object and its streams *)

(** What the logger writes to: the two console streams, one entry per
    [print], and the log file, one entry per [write]. *)
Record streams : Type := {
  stdout : list string;
  stderr : list string;
  file : list string
}.

Definition print_out (line : string) (s : streams) : streams :=
  {| stdout := stdout s ++ [line]; stderr := stderr s; file := file s |}.

Definition print_err (line : string) (s : streams) : streams :=
  {| stdout := stdout s; stderr := stderr s ++ [line]; file := file s |}.

(** A call of one of the four reporting methods of a [Logger]. *)
Inductive logger_call : Type :=
| CallInfo (message : string)
| CallError (message : string)
| CallWarn (message : string)
| CallLogCommand (timestamp command output error : string).

(** The console lines of the [error] calls among a sequence of calls. *)
Definition call_errors (calls : list logger_call) : list string :=
  omap (λ c, match c with
             | CallError m => Some ("[ERROR] " +:+ m)
             | _ => None
             end) calls.

Module LoggerMethods.
Section Files.

(** The file system under the logger: [os.path.dirname], whether
    [os.makedirs] raises an [OSError] for a directory, the text of the
    [OSError] that [open] raises for a path, and the text of the exception
    that writing a chunk after what the file holds raises. *)
Variable dirname : string → string.
Variable makedirs_fails : string → bool.
Variable open_error : string → option string.
Variable write_error : list string → string → option string.

(** [Logger._write_to_file]: the message and a newline, written and
    flushed; an exception is reported on stderr and goes no further. *)
Definition _write_to_file (self : Logger) (message : string) (s : streams) : streams :=
  if file_handle self then
    match write_error (file s) (message +:+ newline) with
    | None =>
        {| stdout := stdout s; stderr := stderr s;
           file := file s ++ [message +:+ newline] |}
    | Some e => print_err ("[ERROR] Could not write to log file: " +:+ e) s
    end
  else s.

Definition info (self : Logger) (message : string) (s : streams) : streams :=
  let formatted_message := "[INFO] " +:+ message in
  let s := print_out formatted_message s in
  if file_handle self then _write_to_file self formatted_message s else s.

Definition error (self : Logger) (message : string) (s : streams) : streams :=
  let formatted_message := "[ERROR] " +:+ message in
  let s := print_err formatted_message s in
  if file_handle self then _write_to_file self formatted_message s else s.

Definition warn (self : Logger) (message : string) (s : streams) : streams :=
  let formatted_message := "[WARNING] " +:+ message in
  let s := print_out formatted_message s in
  if file_handle self then _write_to_file self formatted_message s else s.

(** [Logger.log_command], with the timestamp it reads from the clock. *)
Definition log_command (self : Logger) (timestamp command output error : string)
    (s : streams) : streams :=
  let s :=
    if verbose self then
      let s := print_out ("[COMMAND] " +:+ command) s in
      let s := if nonempty output then print_out ("[OUTPUT] " +:+ output) s else s in
      if nonempty error then print_out ("[ERROR] " +:+ error) s else s
    else s in
  if file_handle self
  then _write_to_file self (log_entry timestamp command output error) s
  else s.

(** The text of the [OSError] that closing the file raises, by what the
    file holds: closing flushes what a failed write left behind. *)
Variable close_error : list string → option string.

(** [Logger.close]: with an open file, [file_handle.close()] and then
    [file_handle = None]; an exception of the former goes to the caller and
    leaves the handle set. *)
Definition close (self : Logger) (s : streams) : result string Logger :=
  if file_handle self then
    match close_error (file s) with
    | None =>
        Ok {| dry_run := dry_run self; verbose := verbose self;
              file_handle := false |}
    | Some e => Raise e
    end
  else Ok self.

Definition no_handle (dry_run verbose : bool) : Logger :=
  {| dry_run := dry_run; verbose := verbose; file_handle := false |}.

(** [Logger.__init__], with the timestamp of the header. The file is
    opened for appending: [file s] is what it holds already. *)
Definition init (dry_run verbose : bool) (log_file : option string)
    (timestamp : string) (s : streams) : Logger * streams :=
  match log_file with
  | Some path =>
      if nonempty path then
        let log_dir := dirname path in
        if nonempty log_dir && makedirs_fails log_dir then
          (no_handle dry_run verbose,
           print_err ("[ERROR] Could not create log directory: " +:+ log_dir) s)
        else
          match open_error path with
          | Some e =>
              (no_handle dry_run verbose,
               print_err ("[ERROR] Could not open log file: " +:+ e) s)
          | None =>
              let self := {| dry_run := dry_run; verbose := verbose;
                             file_handle := true |} in
              (self,
               _write_to_file self
                 (newline +:+ "--- Logging started at " +:+ timestamp +:+ " ---"
                  +:+ newline) s)
          end
      else (no_handle dry_run verbose, s)
  | None => (no_handle dry_run verbose, s)
  end.

Definition perform (self : Logger) (c : logger_call) (s : streams) : streams :=
  match c with
  | CallInfo m => info self m s
  | CallError m => error self m s
  | CallWarn m => warn self m s
  | CallLogCommand ts command output err => log_command self ts command output err s
  end.

(** A sequence of calls on one logger, in order. *)
Definition replay (self : Logger) (calls : list logger_call) (s : streams) : streams :=
  foldl (λ s c, perform self c s) s calls.

End Files.
End LoggerMethods.

(** * The engine's events as calls of the logger *)

Section Calls.

Variable py_str : pyval → string.

Definition call_of_event (e : event) : option logger_call :=
  match e with
  | Info m => Some (CallInfo (render py_str m))
  | Error m => Some (CallError (render py_str m))
  | Warn m => Some (CallWarn (render py_str m))
  | LogCommand ts c output err => Some (CallLogCommand ts (py_str c) output err)
  | Invoke _ _ => None
  end.

Definition calls_of (t : list event) : list logger_call :=
  omap call_of_event t.

(** The texts of the [Error] events of a trace. *)
Definition error_lines (t : list event) : list string :=
  omap (λ e, match e with
             | Error m => Some ("[ERROR] " +:+ render py_str m)
             | _ => None
             end) t.

(** The console lines of [info] and [warn] of a trace. *)
Definition report_lines (t : list event) : list string :=
  omap (λ e, match e with
             | Info m => Some ("[INFO] " +:+ render py_str m)
             | Warn m => Some ("[WARNING] " +:+ render py_str m)
             | _ => None
             end) t.

End Calls.

(** * runner.py: the [list] command *)

(** How [main] ends for [list]: it returns, it exits, or an exception of
    the named type goes uncaught. *)
Inductive list_outcome : Type :=
| Listed
| ListExited (code : Z)
| ListRaised (exception_type : string).

Section MainList.

Variable write_error : list string → string → option string.
Variable close_error : list string → option string.

Local Abbreviation info := (LoggerMethods.info write_error).
Local Abbreviation error := (LoggerMethods.error write_error).
Local Abbreviation warn := (LoggerMethods.warn write_error).

(** [for name in macros.keys(): logger.info(f"  - {name}")] *)
Definition list_names (logger : Logger) (names : list string) (s : streams) : streams :=
  foldl (λ s name, info logger ("  - " +:+ name) s) s names.

(** [if logger.file_handle: logger.close()] and [return]. *)
Definition close_and_return (logger : Logger) (s : streams)
  : list_outcome * Logger * streams :=
  match LoggerMethods.close close_error logger s with
  | Ok logger' => (Listed, logger', s)
  | Raise _ => (ListRaised "OSError", logger, s)
  end.

(** [main] for the [list] command, from the loading of the macros on;
    the logger is closed on the way out when its file is open. *)
Definition main_list (runner_yaml : file_state) (logger : Logger) (s : streams)
  : list_outcome * Logger * streams :=
  match load_macros runner_yaml with
  | Raise FileNotFoundError =>
      (ListExited 1, logger,
       error logger
         "runner.yaml not found. Please create a runner.yaml file in the current directory."
         s)
  | Raise (ValueError detail) =>
      (ListExited 1, logger,
       error logger ("Invalid macro definition in runner.yaml: " +:+ detail) s)
  | Raise e =>
      (ListExited 1, logger,
       error logger ("Unexpected error loading macros: " +:+ exception_name e
                     +:+ ": " +:+ exception_text e) s)
  | Ok macros =>
      let s := if py_truth macros then s
               else warn logger "No macros found in runner.yaml file." s in
      let s := info logger "Available macros:" s in
      match macros with
      | PNone =>
          close_and_return logger
            (warn logger "Could not load macros - no macros available" s)
      | PDict d => close_and_return logger (list_names logger d.*1 s)
      | _ => (ListRaised "AttributeError", logger, s)
      end
  end.

End MainList.

(** * More observations of a trace *)

(** A run that ended as the code ends: it returned, it exited, or an
    exception went uncaught. *)
Definition ended (o : outcome) : Prop :=
  match o with
  | Returned | Exited _ | Raised _ => True
  | Unmodelled | OutOfFuel => False
  end.

(** What a sequence of calls puts on stderr when every write to the open
    log file raises with the text [e]: the line of an [error] call, and
    after every call the report of the failed write. *)
Definition failing_stderr (e : string) (calls : list logger_call) : list string :=
  calls ≫= λ c,
    match c with
    | CallError m => ["[ERROR] " +:+ m; "[ERROR] Could not write to log file: " +:+ e]
    | _ => ["[ERROR] Could not write to log file: " +:+ e]
    end.

(** The reports of something having gone wrong: every warning, and every
    error but the echo of a command's stderr. *)
Definition is_problem (e : event) : bool :=
  match e with
  | Warn _ => true
  | Error (CommandErrors _) => false
  | Error _ => true
  | _ => false
  end.

Definition problems (t : list event) : list event := List.filter is_problem t.

(** The macros a trace reports as started and as completed. *)
Definition started (t : list event) : list string :=
  omap (λ e, match e with Info (ExecutingMacro n) => Some n | _ => None end) t.

Definition completed (t : list event) : list string :=
  omap (λ e, match e with Info (MacroCompleted n) => Some n | _ => None end) t.

(** The commands a dry run reports it would execute. *)
Definition would_execute (t : list event) : list pyval :=
  omap (λ e, match e with Info (DryRunWould c) => Some c | _ => None end) t.

Section Observations.

Context {W : Type}.
Variable runner_yaml : W → file_state.
Variable logger : Logger.
Variable continue_on_error : bool.

(** An exit is explained: its status is not zero, and it is 1 unless a
    command failed with that status and continue-on-error is off. *)
Definition exit_explained (r : outcome * @state W) : Prop :=
  ∀ code, r.1 = Exited code →
    code ≠ 0
    ∧ (code = 1
       ∨ (continue_on_error = false ∧ dry_run logger = false
          ∧ last (trace r.2) = Some (Error StoppingExecution)
          ∧ ∃ command, Error (CommandFailed code command) ∈ trace r.2)).

(** A recursive call that reports no problem when it returns. *)
Definition tidy (rec : string → pyval → @state W → outcome * @state W) : Prop :=
  ∀ n d st st', rec n d st = (Returned, st') →
    problems (trace st') = problems (trace st).

End Observations.

(** * Concrete runs

    Small worlds on which the engine is evaluated. *)

Module Examples.

(** A world in which nothing changes: the macro file is [file] throughout
    and every command finishes with [result]. *)
Definition const_run (result : exec_result)
  : pyval → gmap string string → unit → exec_result * unit :=
  λ _ _ w, (result, w).

Definition const_file (file : file_state) : unit → file_state := λ _, file.

Definition clock : unit → string := λ _, "2024-01-01 00:00:00".

Definition fresh : @state unit :=
  {| executed_macros := ∅; world := tt; trace := [] |}.

Definition plain : Logger :=
  {| dry_run := false; verbose := false; file_handle := true |}.

Definition dry : Logger :=
  {| dry_run := true; verbose := false; file_handle := true |}.

Definition call (name : string) : pyval := PDict [("call", PStr name)].

(** [str()] of a command: a string is itself. *)
Definition show (v : pyval) : string :=
  match v with
  | PStr s => s
  | PNone => "None"
  | PBool true => "True"
  | PBool false => "False"
  | PInt z => pretty z
  | PList _ => "[...]"
  | PDict _ => "{...}"
  end.

Definition ok : exec_result := Completed 0 "done" EmptyString.
Definition silent : exec_result := Completed 0 EmptyString EmptyString.
Definition failing : exec_result := Completed 3 EmptyString "boom".

(** [a] overrides [X] and calls [b]; [b] has no overrides. *)
Definition outer_inner : pyval :=
  PDict [("a", PDict [("commands", PList [call "b"; PStr "echo $X"]);
                      ("env", PDict [("X", PStr "outer")])]);
         ("b", PDict [("commands", PList [PStr "echo $X"])])].

(** [a] calls [b] and [b] calls [a]. *)
Definition two_cycle : pyval :=
  PDict [("a", PList [call "b"]); ("b", PList [call "a"])].

(** A macro that runs the same command twice. *)
Definition twice : pyval := PList [PStr "echo a"; PStr "echo a"].

(** A world whose macro file is removed by the first command that runs:
    the world is whether the file is still there. *)
Definition removing_run : pyval → gmap string string → bool → exec_result * bool :=
  λ _ _ _, (ok, false).

Definition removable_file (file : pyval) : bool → file_state :=
  λ present, if present then Doc file else Absent.

(** An iteration order of the set of names: it lists ["a"] before ["b"]. *)
Definition a_before_b : gset string → list string := elements.

Definition caller_callee : pyval :=
  PDict [("a", PList [PStr "rm runner.yaml"; call "b"]);
         ("b", PList [PStr "echo b"])].

End Examples.

Module MoreExamples.

Import Examples.

(** A log file every write to which succeeds, and one on a full disk. *)
Definition writable : list string → string → option string := λ _ _, None.
Definition disk_full : list string → string → option string :=
  λ _ _, Some "No space left on device".

Definition no_streams : streams := {| stdout := []; stderr := []; file := [] |}.

Definition closed : Logger :=
  {| dry_run := false; verbose := false; file_handle := false |}.

(** A flat macro file in which one macro is named [macros]. *)
Definition flat_with_macros : pyval :=
  PDict [("build", PList [PStr "make"]); ("macros", PList [PStr "ls"])].

Definition table : list (string * pyval) :=
  [("build", PList [PStr "make"; call "test"]); ("test", PList [PStr "make test"])].

Definition bad_env : pyval :=
  PDict [("commands", PList [PStr "cmd"]);
         ("env", PDict [("A", PStr "1"); ("B", PInt 2); ("C", PNone)])].

Definition inside_a : @state unit :=
  {| executed_macros := {["a"]}; world := tt; trace := [] |}.

Definition calls : list logger_call :=
  [CallInfo "start"; CallError "oops"; CallLogCommand "12:00" "ls" "out" "err";
   CallWarn "careful"].

End MoreExamples.

(** * Properties of the engine *)

Section Properties.

Set Default Proof Using "Type".

Context {W : Type}.
Variable run_cmd : pyval → gmap string string → W → exec_result * W.
Variable runner_yaml : W → file_state.
Variable now : W → string.
Variable environ : gmap string string.
Variable set_iter : gset string → list string.
Variable logger : Logger.
Variable continue_on_error : bool.
Variable py_str : pyval → string.

Local Abbreviation state := (@state W).
Local Abbreviation literal := (run_literal run_cmd now logger continue_on_error).
Local Abbreviation call_step := (run_call runner_yaml continue_on_error).
Local Abbreviation step := (run_step run_cmd runner_yaml now logger continue_on_error).
Local Abbreviation loop := (run_commands run_cmd runner_yaml now logger continue_on_error).
Local Abbreviation execute :=
  (execute_macro run_cmd runner_yaml now environ set_iter logger continue_on_error).

(** ** The state updates *)

Lemma stack_log e (st : state) : executed_macros (log e st) = executed_macros st.
Proof. reflexivity. Qed.

Lemma trace_log e (st : state) : trace (log e st) = trace st ++ [e].
Proof. reflexivity. Qed.

Lemma world_log e (st : state) : world (log e st) = world st.
Proof. reflexivity. Qed.

Lemma invocations_app (t u : list event) :
  invocations (t ++ u) = invocations t ++ invocations u.
Proof. unfold invocations. apply omap_app. Qed.

(** Splits every test the loop body makes. *)
Ltac split_body :=
  repeat match goal with
         | |- context [match ?x with _ => _ end] => destruct x eqn:?
         | |- context [if ?x then _ else _] => destruct x eqn:?
         end.

(** ** The loop *)


(** ** The call stack *)

Lemma push_pop (n : string) (s : gset string) : n ∉ s → ({[n]} ∪ s) ∖ {[n]} = s.
Proof.
  intros Hn. apply set_eq. intros x.
  rewrite elem_of_difference, elem_of_union, elem_of_singleton.
  split; [intros [[->|Hx] Hne]; done|].
  intros Hx. split; [by right|]. by intros ->.
Qed.

Lemma run_literal_stack commands env i c (st : state) :
  executed_macros (literal commands env i c st).2 = executed_macros st.
Proof.
  unfold run_literal, log_command. split_body; reflexivity.
Qed.

Lemma run_call_stack rec c (st st' : state) :
  restores rec →
  call_step rec c st = (Returned, st') →
  executed_macros st' = executed_macros st.
Proof.
  intros Hrec. unfold run_call.
  destruct (load_macros _); [|done].
  destruct (lookup_macro _ _); try done.
  - destruct continue_on_error; simpl; [|done]. by intros [= <-].
  - intros H. by apply Hrec in H.
Qed.

Lemma run_step_stack rec commands env i c (st st' : state) :
  restores rec →
  step rec commands env i c st = (Returned, st') →
  executed_macros st' = executed_macros st.
Proof.
  intros Hrec. unfold run_step. destruct (is_call c).
  - by apply run_call_stack.
  - intros H. rewrite <- (run_literal_stack commands env i c st). by rewrite H.
Qed.

Lemma run_commands_stack rec commands env i rest (st st' : state) :
  restores rec →
  loop rec commands env i rest st = (Returned, st') →
  executed_macros st' = executed_macros st.
Proof.
  intros Hrec. revert i st. induction rest as [|c rest IH]; intros i st; simpl.
  - by intros [= <-].
  - destruct (step rec commands env i c st) as [[] st1] eqn:Hstep; try done.
    intros H. apply IH in H. rewrite H. by eapply run_step_stack.
Qed.

Lemma execute_macro_restores fuel : restores (execute fuel).
Proof.
  induction fuel as [|fuel IH]; intros n d st st'; simpl; [done|].
  destruct (decide (n ∈ executed_macros st)) as [|Hfresh]; [done|].
  destruct (validate_macro_definition n d); [|done].
  destruct (normalize environ d) as [[commands env]|]; [|done].
  destruct (loop _ _ _ _ _ _) as [[] st1] eqn:Hloop; try done.
  intros [= <-]. simpl.
  apply run_commands_stack in Hloop; [|done]. rewrite Hloop. simpl.
  by apply push_pop.
Qed.

(** C6. The call stack is a set, so a name is in it at most once in every
    state; and whenever [execute_macro] returns, whatever steps were skipped
    on the way, the name it pushed was not on the stack before and the stack
    is again what it was before the call. *)
Theorem call_stack_balanced fuel macro_name macro_definition (st st' : state) :
  execute fuel macro_name macro_definition st = (Returned, st') →
  executed_macros st' = executed_macros st
  ∧ (macro_name ∉ executed_macros st)
  ∧ NoDup (elements (executed_macros st))
  ∧ NoDup (elements (executed_macros st')).
Proof.
  intros H. split; [by eapply execute_macro_restores|].
  split; [|split; apply NoDup_elements].
  destruct fuel as [|fuel]; simpl in H; [done|].
  by destruct (decide (macro_name ∈ executed_macros st)).
Qed.

(** ** Dry run *)

Lemma executor_events_snoc (t : list event) e :
  is_executor_event e = false →
  executor_events (t ++ [e]) = executor_events t.
Proof.
  intros He. unfold executor_events.
  rewrite List.filter_app. simpl. rewrite He. apply app_nil_r.
Qed.

(** Discards the events at the end of a trace that are not the executor's. *)
Ltac drop_logs := simpl; rewrite ?executor_events_snoc by done.

Lemma invocations_executor_events (t : list event) :
  invocations (executor_events t) = invocations t.
Proof.
  induction t as [|e t IH]; [done|].
  unfold executor_events in *. simpl.
  destruct e as [m|m|m| |]; simpl; try done; try by rewrite IH.
  destruct m; simpl; try done; by rewrite IH.
Qed.

Lemma run_literal_dry commands env i c (st : state) :
  dry_run logger = true →
  literal commands env i c st =
  (Returned,
   log (Info (DryRunWould c))
     (log (Info (RunningCommand (command_index commands i c)
                   (total_commands commands) c)) st)).
Proof. intros Hdry. unfold run_literal. by rewrite Hdry. Qed.

Lemma run_call_quiet rec c (st : state) :
  quiet rec →
  executor_events (trace (call_step rec c st).2) = executor_events (trace st).
Proof.
  intros Hrec. unfold run_call. split_body; try rewrite Hrec; by drop_logs.
Qed.

Lemma run_step_quiet rec commands env i c (st : state) :
  dry_run logger = true → quiet rec →
  executor_events (trace (step rec commands env i c st).2) = executor_events (trace st).
Proof.
  intros Hdry Hrec. unfold run_step. destruct (is_call c).
  - by apply run_call_quiet.
  - rewrite run_literal_dry by done. by drop_logs.
Qed.

Lemma run_commands_quiet rec commands env i rest (st : state) :
  dry_run logger = true → quiet rec →
  executor_events (trace (loop rec commands env i rest st).2) = executor_events (trace st).
Proof.
  intros Hdry Hrec. revert i st.
  induction rest as [|c rest IH]; intros i st; simpl; [done|].
  pose proof (run_step_quiet rec commands env i c st Hdry Hrec) as Hstep.
  destruct (step rec commands env i c st) as [[] st1]; simpl in *; try done.
  by rewrite IH.
Qed.

Lemma execute_macro_quiet fuel : dry_run logger = true → quiet (execute fuel).
Proof.
  intros Hdry. induction fuel as [|fuel IH]; intros n d st; simpl; [done|].
  destruct (decide (n ∈ executed_macros st)); [by drop_logs|].
  destruct (validate_macro_definition n d); [|by drop_logs].
  destruct (normalize environ d) as [[commands env]|]; [|by drop_logs].
  match goal with
  | |- context [loop ?r ?cs ?e ?i ?l ?s] =>
      pose proof (run_commands_quiet r cs e i l s Hdry IH) as Hloop;
      destruct (loop r cs e i l s) as [[] st1]
  end; simpl in Hloop; drop_logs; rewrite Hloop; by drop_logs.
Qed.

(** C8. In dry-run mode a call of [execute_macro], for any definition and
    either setting of continue-on-error, neither invokes the command
    executor nor reports a command failure: the trace gains no invocation,
    no log block and no failure report. *)
Theorem dry_run_never_invokes fuel macro_name macro_definition (st : state) :
  dry_run logger = true →
  invocations (trace (execute fuel macro_name macro_definition st).2)
    = invocations (trace st)
  ∧ executor_events (trace (execute fuel macro_name macro_definition st).2)
    = executor_events (trace st).
Proof.
  intros Hdry.
  pose proof (execute_macro_quiet fuel Hdry macro_name macro_definition st) as H.
  split; [|done].
  by rewrite <- invocations_executor_events, H, invocations_executor_events.
Qed.

(** ** Failure policy *)




(** An exit or an exception in the loop ends the enclosing call of
    [execute_macro] with the same outcome and state. *)
Lemma execute_macro_passes_on fuel n d (st st' : state) commands env out :
  n ∉ executed_macros st →
  validate_macro_definition n d = Ok true →
  normalize environ d = Some (commands, env) →
  loop (execute fuel) commands env 0 commands
    (log (Info (ExecutingMacro n)) (set_stack ({[n]} ∪ executed_macros st) st))
  = (out, st') →
  out ≠ Returned →
  execute (S fuel) n d st = (out, st').
Proof.
  intros Hfresh Hval Hnorm Hloop Hout. simpl.
  destruct (decide (n ∈ executed_macros st)); [done|].
  rewrite Hval, Hnorm, Hloop. by destruct out.
Qed.

(** ** Macro calls *)

(** C9. A step that calls the macro [name] is resolved against what
    [runner.yaml] holds at that moment. When the file is absent the loop
    ends with an uncaught [FileNotFoundError], whatever continue-on-error is
    and without a macro-not-found report. When the file holds a mapping, the
    table is the mapping itself or what it has under [macros], and the step
    runs the definition this table has for the name, or follows the
    not-found policy when it has none. The mapping the run started with
    plays no part: in a [run] whose macro, found in the mapping loaded at
    the start, runs a command that removes the file and then calls a macro,
    the call raises [FileNotFoundError] whatever that mapping has for the
    called name. *)
Theorem call_reads_file_again rec commands env i c name rest (st : state) :
  dict_get "call" c = Some (PStr name) →
  let st1 := log (Info (CallingMacro (PStr name))) st in
  (runner_yaml (world st) = Absent →
     loop rec commands env i (PDict c :: rest) st = (Raised FileNotFoundError, st1))
  ∧ (∀ d m,
       runner_yaml (world st) = Doc (PDict d) →
       dict_get "macros" d = None ∧ m = d ∨ dict_get "macros" d = Some (PDict m) →
       step rec commands env i (PDict c) st
       = match dict_get name m with
         | Some def => rec name def st1
         | None =>
             if continue_on_error
             then (Returned,
                   log (Warn (SkippingMissing (PStr name)))
                     (log (Error (MacroNotFound (PStr name))) st1))
             else (Exited 1, log (Error (MacroNotFound (PStr name))) st1)
         end)
  ∧ (∀ fuel d0 n first stdout stderr w1 (st0 : state),
       n ≠ EmptyString → dry_run logger = false →
       runner_yaml (world st0) = Doc (PDict d0) →
       dict_get "macros" d0 = None →
       dict_get n d0 = Some (PList [first; PDict c]) →
       is_call first = false →
       run_cmd first environ (world st0) = (Completed 0 stdout stderr, w1) →
       runner_yaml w1 = Absent →
       (main_run run_cmd runner_yaml now environ set_iter logger continue_on_error
          (S (S fuel)) (Some n) st0).1
       = Raised FileNotFoundError).
Proof.
  intros Hcall st1.
  assert (is_call (PDict c) = true) as Hc by (simpl; unfold dict_has; by rewrite Hcall).
  assert (call_target (PDict c) = PStr name) as Htarget by (simpl; by rewrite Hcall).
  split_and!.
  - intros Hfile. simpl. unfold run_step, run_call. rewrite Hc, Htarget. simpl.
    by rewrite Hfile.
  - intros d m Hfile Htable. unfold run_step, run_call. rewrite Hc, Htarget.
    simpl. rewrite Hfile. simpl.
    destruct Htable as [[-> ->]| ->]; simpl;
      destruct (dict_get name _); by destruct continue_on_error.
  - intros fuel d0 n first out err w1 st0 Hn Hdry Hfile Hmacros Hdef Hfirst Hrun Hgone.
    unfold main_run. rewrite Hfile. simpl. rewrite Hmacros.
    destruct n as [|a n]; [done|]. simpl. rewrite Hdef.
    assert (∀ st2 : state, world st2 = world st0 →
              (execute (S (S fuel)) (String a n) (PList [first; PDict c])
                 (set_stack ∅ st2)).1 = Raised FileNotFoundError) as Hexec.
    { intros st2 Hworld. simpl.
      destruct (decide (String a n ∈ (∅ : gset string))) as [Hin|_];
        [by apply not_elem_of_empty in Hin|].
      unfold run_step at 1. rewrite Hfirst.
      unfold run_literal, log_command. rewrite Hdry. simpl.
      rewrite Hworld, Hrun. simpl.
      unfold run_step, run_call. rewrite Hc, Htarget.
      destruct (verbose logger), (nonempty err); simpl; by rewrite Hgone. }
    destruct (negb (Nat.eqb (length d0) 0)); by apply Hexec.
Qed.

(** ** Steps that are not commands *)

Lemma validate_list macro_name l :
  validate_macro_definition macro_name (PList l) = Ok true.
Proof. reflexivity. Qed.

Lemma validate_ignores_steps macro_name l l' d :
  validate_macro_definition macro_name (PDict (("commands", PList l) :: d))
  = validate_macro_definition macro_name (PDict (("commands", PList l') :: d)).
Proof. reflexivity. Qed.

(** C10. Validation does not look at the steps: a definition passes or
    fails whatever its sequence of steps holds, and a sequence holding a
    step that is neither a string nor a call passes. At execution such a
    step goes to the executor as a literal command, and when the executor
    raises on it the outcome follows continue-on-error (exit 1, or a warning
    and the next step), with an execution error and no validation error
    reported. *)
Theorem unvalidated_step rec macro_name l d commands env i command (st : state)
    detail w :
  command ∈ l → is_str command = false → is_call command = false →
  dry_run logger = false →
  run_cmd command env (world st) = (ExecException detail, w) →
  validate_macro_definition macro_name (PList l) = Ok true
  ∧ validate_macro_definition macro_name (PDict [("commands", PList l)]) = Ok true
  ∧ (∀ l', validate_macro_definition macro_name (PDict (("commands", PList l) :: d))
           = validate_macro_definition macro_name (PDict (("commands", PList l') :: d)))
  ∧ let st1 :=
      log (Error (ErrorExecuting command detail))
        (log_command now command EmptyString detail
           (set_world w
              (log (Invoke command env)
                 (log (Info (RunningCommand (command_index commands i command)
                               (total_commands commands) command)) st)))) in
    step rec commands env i command st
    = if continue_on_error
      then (Returned, log (Warn (ContinuingAfterException command)) st1)
      else (Exited 1, st1).
Proof.
  intros _ _ Hc Hdry Hrun. repeat split.
  unfold run_step, run_literal. rewrite Hc, Hdry. simpl. rewrite Hrun.
  by destruct continue_on_error.
Qed.

(** ** Validation *)

Lemma check_env_values_ok macro_name items :
  check_env_values macro_name items = Ok tt ↔
  ∀ k v, (k, v) ∈ items → is_str v = true.
Proof.
  induction items as [|[k v] items IH]; simpl.
  - split; [|done]. intros _ k v Hin. by apply elem_of_nil in Hin.
  - destruct (is_str v) eqn:Hv.
    + rewrite IH. split.
      * intros H k' v' [[= -> ->]|Hin]%elem_of_cons; [done|by eapply H].
      * intros H k' v' Hin. apply (H k'). by apply elem_of_cons; right.
    + split; [done|]. intros H.
      rewrite (H k v) in Hv; [done|]. by apply elem_of_cons; left.
Qed.

Lemma check_env_values_raise macro_name items err :
  check_env_values macro_name items = Raise err →
  ∃ k v, err = EnvValueNotStr k macro_name (type_name v)
    ∧ (k, v) ∈ items ∧ is_str v = false.
Proof.
  induction items as [|[k v] items IH]; simpl; [done|].
  destruct (is_str v) eqn:Hv.
  - intros (k' & v' & -> & Hin & Hv')%IH.
    exists k', v'. split_and!; [done| |done]. by apply elem_of_cons; right.
  - intros [= <-]. exists k, v. split_and!; [done| |done].
    by apply elem_of_cons; left.
Qed.

Lemma validate_error_macro macro_name macro_def err :
  validate_macro_definition macro_name macro_def = Raise err →
  error_macro err = macro_name.
Proof.
  unfold validate_macro_definition. split_body; intros [= <-]; try done.
  match goal with
  | H : check_env_values _ _ = Raise _ |- _ =>
      apply check_env_values_raise in H as (? & ? & -> & _)
  end. done.
Qed.

Lemma validate_rejects_malformed macro_name macro_def :
  (∃ err, validate_macro_definition macro_name macro_def = Raise err)
  ↔ malformed_definition macro_def.
Proof.
  unfold malformed_definition. split.
  - intros [err H]. destruct macro_def as [| | | |l|d]; simpl in H;
      try (by left).
    right. exists d. split; [done|].
    destruct (dict_get "commands" d) as [v|] eqn:Hc; [|by left].
    destruct (is_list v) eqn:Hv; [|right; left; by exists v].
    destruct v; try done.
    destruct (dict_get "env" d) as [v|] eqn:He; [|done].
    destruct (is_dict v) eqn:Hd; [|right; right; left; by exists v].
    destruct v as [| | | | |e]; try done.
    destruct (check_env_values macro_name e) eqn:Hchk; [done|].
    apply check_env_values_raise in Hchk as (k & v & _ & Hin & Hv').
    right; right; right. by exists e, k, v.
  - intros [[Hl Hd]|(d & -> & H)].
    + destruct macro_def; try done; by eexists.
    + simpl. destruct H as [->|[(v & -> & Hv)|[(v & He & Hv)|(e & k & v & He & Hin & Hv)]]].
      * by eexists.
      * destruct v; try done; by eexists.
      * destruct (dict_get "commands" d) as [[]|]; try by eexists.
        rewrite He. destruct v; try done; by eexists.
      * destruct (dict_get "commands" d) as [[]|]; try by eexists.
        rewrite He.
        destruct (check_env_values macro_name e) as [[]|err] eqn:Hchk; [|by eexists].
        rewrite check_env_values_ok in Hchk. by rewrite (Hchk k v Hin) in Hv.
Qed.

Lemma validate_names_key macro_name macro_def k n ty :
  validate_macro_definition macro_name macro_def = Raise (EnvValueNotStr k n ty) →
  ∃ d e v, macro_def = PDict d ∧ dict_get "env" d = Some (PDict e)
    ∧ (k, v) ∈ e ∧ is_str v = false ∧ ty = type_name v.
Proof.
  unfold validate_macro_definition. split_body; intros [= Herr]; subst.
  match goal with
  | H : check_env_values _ _ = Raise _ |- _ =>
      apply check_env_values_raise in H as (k' & v & [= -> ->] & Hin & Hv)
  end.
  by eexists _, _, v.
Qed.

Lemma validation_errors_snoc name (t : list event) e :
  blames name e = false →
  validation_errors name (t ++ [e]) = validation_errors name t.
Proof.
  intros He. unfold validation_errors.
  rewrite List.filter_app. simpl. rewrite He. apply app_nil_r.
Qed.

Ltac drop_reports := simpl; rewrite ?validation_errors_snoc by done.

Lemma run_literal_no_blame name commands env i c (st : state) :
  validation_errors name (trace (literal commands env i c st).2)
  = validation_errors name (trace st).
Proof. unfold run_literal, log_command. split_body; by drop_reports. Qed.

Lemma run_step_no_blame name rec commands env i c (st : state) :
  blameless name rec → name ∈ executed_macros st →
  validation_errors name (trace (step rec commands env i c st).2)
  = validation_errors name (trace st).
Proof.
  intros Hrec Hin. unfold run_step. destruct (is_call c).
  - unfold run_call. split_body; try rewrite Hrec by done; by drop_reports.
  - apply run_literal_no_blame.
Qed.

Lemma run_commands_no_blame name rec commands env i rest (st : state) :
  restores rec → blameless name rec → name ∈ executed_macros st →
  validation_errors name (trace (loop rec commands env i rest st).2)
  = validation_errors name (trace st).
Proof.
  intros Hres Hrec. revert i st.
  induction rest as [|c rest IH]; intros i st Hin; simpl; [done|].
  pose proof (run_step_no_blame name rec commands env i c st Hrec Hin) as Hstep.
  destruct (step rec commands env i c st) as [[] st1] eqn:Heq; simpl in *; try done.
  rewrite IH; [done|].
  by rewrite (run_step_stack _ _ _ _ _ _ _ Hres Heq).
Qed.

Lemma execute_macro_body_no_blame name fuel n d (st : state) :
  blameless name (execute fuel) →
  n ∉ executed_macros st →
  (n = name → validate_macro_definition n d = Ok true) →
  (n = name ∨ name ∈ executed_macros st) →
  validation_errors name (trace (execute (S fuel) n d st).2)
  = validation_errors name (trace st).
Proof.
  intros IH Hfresh Hvalid Hin. simpl.
  destruct (decide (n ∈ executed_macros st)); [done|].
  destruct (validate_macro_definition n d) as [b|err] eqn:Hval.
  - destruct (normalize environ d) as [[commands env]|]; [|by drop_reports].
    match goal with
    | |- context [loop ?r ?cs ?e ?i ?l ?s] =>
        pose proof (run_commands_no_blame name r cs e i l s
                      (execute_macro_restores fuel) IH) as Hloop;
        destruct (loop r cs e i l s) as [[] st1]
    end; simpl in Hloop; drop_reports; rewrite Hloop; try by drop_reports.
    all: apply elem_of_union; destruct Hin as [->|Hin]; [left|by right];
      by apply elem_of_singleton.
  - simpl. rewrite validation_errors_snoc; [by drop_reports|]. simpl.
    apply validate_error_macro in Hval. rewrite Hval.
    apply String.eqb_neq. intros ->.
    by specialize (Hvalid eq_refl).
Qed.

Lemma execute_macro_no_blame name fuel : blameless name (execute fuel).
Proof.
  induction fuel as [|fuel IH]; intros n d st Hin; [done|].
  destruct (decide (n ∈ executed_macros st)) as [Hn|Hn].
  - simpl. destruct (decide (n ∈ executed_macros st)); [by drop_reports|done].
  - apply execute_macro_body_no_blame; [done|done| |by right].
    intros ->. done.
Qed.

(** C7. For a macro that is not already on the stack: validation rejects
    the definition exactly when it is malformed as the specification lists;
    a rejected definition ends the run with exit status 1 right after the
    report of the error, which names this macro, whatever continue-on-error
    is and with no executor invocation; an error about an [env] value names
    the key of a value that is not a string; and for an accepted definition
    the call reports no validation error for this macro. *)
Theorem validation_error_is_fatal fuel macro_name macro_definition (st : state) :
  macro_name ∉ executed_macros st →
  ((∃ err, validate_macro_definition macro_name macro_definition = Raise err)
   ↔ malformed_definition macro_definition)
  ∧ (∀ err, validate_macro_definition macro_name macro_definition = Raise err →
       error_macro err = macro_name
       ∧ execute (S fuel) macro_name macro_definition st
         = (Exited 1,
            log (Error (InvalidDefinition err))
              (log (Info (ExecutingMacro macro_name))
                 (set_stack ({[macro_name]} ∪ executed_macros st) st)))
       ∧ invocations (trace (execute (S fuel) macro_name macro_definition st).2)
         = invocations (trace st))
  ∧ (∀ k n ty,
       validate_macro_definition macro_name macro_definition
       = Raise (EnvValueNotStr k n ty) →
       ∃ d e v, macro_definition = PDict d ∧ dict_get "env" d = Some (PDict e)
         ∧ (k, v) ∈ e ∧ is_str v = false ∧ ty = type_name v)
  ∧ (validate_macro_definition macro_name macro_definition = Ok true →
       validation_errors macro_name
         (trace (execute fuel macro_name macro_definition st).2)
       = validation_errors macro_name (trace st)).
Proof.
  intros Hfresh. split_and!.
  - apply validate_rejects_malformed.
  - intros err Hval. split; [by eapply validate_error_macro|].
    simpl. destruct (decide (macro_name ∈ executed_macros st)); [done|].
    rewrite Hval. split; [done|]. simpl.
    rewrite !invocations_app. simpl. by rewrite !app_nil_r.
  - apply validate_names_key.
  - intros Hval. destruct fuel as [|fuel]; [done|].
    apply execute_macro_body_no_blame; [|done|done|by left].
    apply execute_macro_no_blame.
Qed.

(** ** The log block of a command *)

Lemma logged_output_nonempty stdout : nonempty (logged_output stdout) = true.
Proof. unfold logged_output. by destruct (nonempty (strip stdout)) eqn:H. Qed.

Lemma logged_error_nonempty stderr :
  nonempty (logged_error stderr) = true ↔ strip stderr ≠ EmptyString.
Proof.
  unfold logged_error. destruct (strip stderr); simpl; split; done.
Qed.

(** C5, as amended. For a command the executor completes, the log block
    handed to the logger has the [EXECUTED] line with the command text,
    always has an [OUTPUT] line, holding the stripped stdout or the text
    [(no output)] when the stripped stdout is empty, and has an [ERROR] line
    exactly when the stripped stderr is not empty. *)
Theorem command_log_block commands env i command (st : state)
    returncode stdout stderr w :
  dry_run logger = false →
  run_cmd command env (world st) = (Completed returncode stdout stderr, w) →
  let output := logged_output stdout in
  let error := logged_error stderr in
  let block := log_block (py_str command) output error in
  LogCommand (now w) command output error
    ∈ trace (literal commands env i command st).2
  ∧ file_record py_str (LogCommand (now w) command output error)
    = [join newline (log_line (now w) <$> block)]
  ∧ (EXECUTED, py_str command) ∈ block
  ∧ (OUTPUT, output) ∈ block
  ∧ (output = strip stdout ∧ strip stdout ≠ EmptyString
     ∨ output = "(no output)" ∧ strip stdout = EmptyString)
  ∧ (has_tag ERROR block = true ↔ strip stderr ≠ EmptyString).
Proof.
  intros Hdry Hrun output error block. split_and!.
  - unfold run_literal, log_command. rewrite Hdry. simpl. rewrite Hrun.
    split_body; simpl; rewrite !elem_of_app, !list_elem_of_singleton; eauto 10.
  - reflexivity.
  - apply elem_of_cons. by left.
  - unfold block, log_block. subst output.
    rewrite logged_output_nonempty. apply elem_of_cons. right.
    apply elem_of_cons. by left.
  - unfold output, logged_output.
    destruct (strip stdout) eqn:H; simpl; [by right|by left].
  - rewrite <- logged_error_nonempty. unfold block, log_block. subst output.
    rewrite logged_output_nonempty. fold error.
    destruct (nonempty error); simpl; split; done.
Qed.

(** ** The environment of a macro *)

Lemma env_update_absent (env : gmap string string) items k :
  (∀ v, (k, v) ∉ items) → env_update env items !! k = env !! k.
Proof.
  unfold env_update. revert env.
  induction items as [|[k' v'] items IH]; intros env Hk; simpl; [done|].
  rewrite IH.
  - destruct v'; simpl; try done.
    apply lookup_insert_ne. intros ->. apply (Hk (PStr s)), elem_of_cons. by left.
  - intros v Hin. apply (Hk v), elem_of_cons. by right.
Qed.

(** The environment of a macro's commands is built from the process
    environment and the macro's own overrides, whatever macro called it. *)
Lemma normalize_env macro_definition commands env k :
  normalize environ macro_definition = Some (commands, env) →
  (∀ d v, macro_definition = PDict d → (k, v) ∉ get_env d) →
  env !! k = environ !! k.
Proof.
  destruct macro_definition as [| | | |l|d]; simpl; try done.
  - by intros [= _ <-].
  - intros [= _ <-] Hk. apply env_update_absent. intros v. by apply (Hk d).
Qed.

(** ** Circular calls *)

(** A call of a macro that is on the stack ends the run with exit status 1
    whatever continue-on-error is; its report carries the names on the
    stack in the order the set iterates them. *)
Lemma circular_call_exits fuel n d (st : state) :
  n ∈ executed_macros st →
  execute (S fuel) n d st
  = (Exited 1, log (Error (CircularCall n (set_iter (executed_macros st)))) st).
Proof. intros Hin. simpl. by destruct (decide (n ∈ executed_macros st)). Qed.

(** ** Progress numbering *)

Lemma total_commands_app l1 l2 :
  total_commands (l1 ++ l2) = (total_commands l1 + total_commands l2)%nat.
Proof. unfold total_commands, actual_commands. by rewrite List.filter_app, length_app. Qed.

Lemma total_commands_cons c l :
  total_commands (c :: l)
  = ((if is_call c then 0 else 1) + total_commands l)%nat.
Proof. unfold total_commands, actual_commands. simpl. by destruct (is_call c). Qed.

Lemma command_index_position commands i c j :
  actual_commands commands !! j = Some c →
  py_eq c c = true →
  (∀ j' c', (j' < j)%nat → actual_commands commands !! j' = Some c' →
            py_eq c' c = false) →
  command_index commands i c = (j + 1)%nat.
Proof.
  unfold command_index. generalize (actual_commands commands) as l.
  intros l Hj Hrefl Hfirst.
  assert (list_contains c l = true ∧ list_index c l = j) as [-> ->]; [|done].
  revert j Hj Hfirst. induction l as [|y l IH]; intros j Hj Hfirst; [done|].
  destruct j as [|j]; simpl in *.
  - injection Hj as ->. by rewrite Hrefl.
  - rewrite (Hfirst 0%nat y) by (done || lia).
    destruct (IH j Hj) as [Hin ->].
    + intros j' c' Hlt. apply (Hfirst (S j') c'). lia.
    + split; [|done]. rewrite Hin. apply orb_true_r.
Qed.

(** ** Enough fuel *)

Lemma dict_get_key k d v : dict_get k d = Some v → k ∈ d.*1.
Proof.
  induction d as [|[k' v'] d IH]; simpl; [done|].
  destruct (String.eqb_spec k k') as [->|_].
  - intros _. apply elem_of_cons. by left.
  - intros H. apply elem_of_cons. right. by apply IH.
Qed.

Lemma lookup_macro_found file all_macros called n def :
  load_macros file = Ok all_macros →
  lookup_macro all_macros called = Found n def →
  n ∈ table_names file.
Proof.
  intros Hload. unfold table_names. rewrite Hload.
  unfold lookup_macro. split_body; intros [= <- <-].
  apply elem_of_list_to_set. by eapply dict_get_key.
Qed.

Lemma run_literal_result commands env i c (st : state) :
  (literal commands env i c st).1 ≠ OutOfFuel.
Proof. unfold run_literal. split_body; done. Qed.

Section StaticFile.

(** The macro file does not change during the run. *)
Variable file : file_state.
Hypothesis static : ∀ w, runner_yaml w = file.

Lemma run_commands_result rec commands env i rest (st : state) :
  restores rec →
  (∀ n d st', n ∈ table_names file → executed_macros st' = executed_macros st →
     (rec n d st').1 ≠ OutOfFuel) →
  (loop rec commands env i rest st).1 ≠ OutOfFuel.
Proof using Type*.
  intros Hres Hrec. revert i st Hrec.
  induction rest as [|c rest IH]; intros i st Hrec; simpl; [done|].
  assert ((step rec commands env i c st).1 ≠ OutOfFuel) as Hstep.
  { unfold run_step. destruct (is_call c); [|apply run_literal_result].
    unfold run_call. simpl. rewrite static.
    destruct (load_macros file) as [table|] eqn:Hload; [|done].
    destruct (lookup_macro table (call_target c)) eqn:Hlook; try done.
    - by destruct continue_on_error.
    - apply Hrec; [|done]. by eapply lookup_macro_found. }
  destruct (step rec commands env i c st) as [[] st1] eqn:Heq; try done.
  apply IH. intros n d st' Hn Hst'. apply Hrec; [done|].
  rewrite Hst'. by eapply run_step_stack.
Qed.

Lemma execute_macro_body_result fuel n d (st : state) :
  (∀ n' d' st', n' ∈ table_names file →
     executed_macros st' = {[n]} ∪ executed_macros st →
     (execute fuel n' d' st').1 ≠ OutOfFuel) →
  (execute (S fuel) n d st).1 ≠ OutOfFuel.
Proof using Type*.
  intros Hrec. simpl.
  destruct (decide (n ∈ executed_macros st)); [done|].
  destruct (validate_macro_definition n d); [|done].
  destruct (normalize environ d) as [[commands env]|]; [|done].
  match goal with
  | |- context [loop ?r ?cs ?e ?i ?l ?s] =>
      pose proof (run_commands_result r cs e i l s
                    (execute_macro_restores fuel) Hrec) as Hloop;
      destruct (loop r cs e i l s) as [[] st1]
  end; done.
Qed.

Lemma budget_push n (st st' : state) :
  n ∈ table_names file → n ∉ executed_macros st →
  executed_macros st' = {[n]} ∪ executed_macros st →
  (budget (table_names file) st' < budget (table_names file) st)%nat.
Proof using Type*.
  intros Hn Hfresh Hst'. unfold budget. rewrite Hst'.
  apply subset_size. split.
  - intros x. rewrite !elem_of_difference, elem_of_union.
    intros [Hx Hnot]. split; [done|]. intros Hs. apply Hnot. by right.
  - intros Hsub. specialize (Hsub n).
    rewrite !elem_of_difference, elem_of_union, elem_of_singleton in Hsub.
    destruct Hsub as [_ Hnot]; [done|]. apply Hnot. by left.
Qed.

Lemma execute_macro_called_result fuel n d (st : state) :
  n ∈ table_names file →
  (budget (table_names file) st < fuel)%nat →
  (execute fuel n d st).1 ≠ OutOfFuel.
Proof using Type*.
  revert n d st. induction fuel as [|fuel IH]; intros n d st Hn Hfuel; [lia|].
  destruct (decide (n ∈ executed_macros st)) as [Hin|Hfresh].
  - by rewrite circular_call_exits.
  - apply execute_macro_body_result. intros n' d' st' Hn' Hst'.
    apply IH; [done|].
    pose proof (budget_push n st st' Hn Hfresh Hst'). lia.
Qed.

(** With a macro file that does not change, a recursion depth above the
    number of names in its table is never exhausted: the run ends by
    returning, by exiting or with an uncaught exception. *)
Lemma enough_fuel fuel n d (st : state) :
  (size (table_names file) + 1 < fuel)%nat →
  (execute fuel n d st).1 ≠ OutOfFuel.
Proof using Type*.
  intros Hfuel. destruct fuel as [|fuel]; [lia|].
  apply execute_macro_body_result. intros n' d' st' Hn' Hst'.
  apply execute_macro_called_result; [done|].
  unfold budget.
  assert (size (table_names file ∖ executed_macros st') ≤ size (table_names file))%nat.
  { apply subseteq_size. intros x. rewrite elem_of_difference. by intros [Hx _]. }
  lia.
Qed.

End StaticFile.

End Properties.

(** * The engine on concrete runs *)

Import Examples.

(** C1. [a] overrides [X], calls [b] and then runs a command of its own;
    [b] has no override of [X], and the process environment has no [X].
    The run completes. The command of [b] is handed to the executor with
    [X] unset, the command of [a] with [X] set to [outer]: the override of
    the calling macro does not reach the macro it calls, whose environment
    starts again from the process environment. *)
Theorem parent_override_not_inherited :
  let run := main_run (const_run ok) (const_file (Doc outer_inner))
               clock ∅ a_before_b plain false 3 (Some "a") fresh in
  run.1 = Returned
  ∧ (λ ce, (ce.1, ce.2 !! "X")) <$> invocations (trace run.2)
    = [(PStr "echo $X", None); (PStr "echo $X", Some "outer")].
Proof. vm_compute. done. Qed.

(** C2. [b] calls [a] and [a] calls [b]; the run starts at [b] and the set
    of names iterates ["a"] before ["b"]. The run ends with exit status 1
    under continue-on-error, and the chain of the report reads
    [a -> b -> b], while the calls were made in the order [b], [a], [b]. *)
Theorem cycle_chain_not_in_call_order :
  let run := main_run (const_run ok) (const_file (Doc two_cycle))
               clock ∅ a_before_b plain true 4 (Some "b") fresh in
  run.1 = Exited 1
  ∧ trace run.2
    = [Info (ExecutingMacro "b"); Info (CallingMacro (PStr "a"));
       Info (ExecutingMacro "a"); Info (CallingMacro (PStr "b"));
       Error (CircularCall "b" ["a"; "b"])]
  ∧ file_record show <$> last (trace run.2)
    = Some ["[ERROR] Circular macro call detected in macro 'b'. Call stack: a -> b -> b"].
Proof. vm_compute. done. Qed.

(** C4. A macro whose two steps are the same command: both progress lines
    read [1/2]; the second literal command is not shown with index 2. *)
Theorem repeated_command_index :
  let run := main_run (const_run ok) (const_file (Doc (PDict [("a", twice)])))
               clock ∅ a_before_b plain false 2 (Some "a") fresh in
  run.1 = Returned
  ∧ progress (trace run.2) = [(1, 2); (1, 2)]%nat
  ∧ invocations (trace run.2) = [(PStr "echo a", ∅); (PStr "echo a", ∅)].
Proof. vm_compute. done. Qed.

(** C5, as stated, fails: a command that writes nothing to stdout and one
    blank to stderr gets a block with an [OUTPUT] line and no [ERROR]
    line. *)
Lemma output_line_without_stdout :
  let stdout := EmptyString in
  let stderr := " " in
  let run := main_run (const_run (Completed 0 stdout stderr))
               (const_file (Doc (PDict [("a", PList [PStr "true"])])))
               clock ∅ a_before_b plain false 2 (Some "a") fresh in
  let block := log_block "true" (logged_output stdout) (logged_error stderr) in
  LogCommand "2024-01-01 00:00:00" (PStr "true")
    (logged_output stdout) (logged_error stderr) ∈ trace run.2
  ∧ block = [(EXECUTED, "true"); (OUTPUT, "(no output)")]
  ∧ ¬ (has_tag OUTPUT block = true ↔ nonempty stdout = true)
  ∧ ¬ (has_tag ERROR block = true ↔ nonempty stderr = true).
Proof.
  vm_compute. split_and!.
  - do 3 (apply elem_of_cons; right). apply elem_of_cons. by left.
  - done.
  - intros [H _]. by specialize (H eq_refl).
  - intros [_ H]. by specialize (H eq_refl).
Qed.

(** A run in which the first command removes [runner.yaml]: the macro was
    found in the mapping loaded at the start, and its call of [b], which
    that mapping has, raises [FileNotFoundError] under continue-on-error. *)
Example call_after_file_removed :
  let run := main_run removing_run (removable_file caller_callee)
               (λ _, "2024-01-01 00:00:00") ∅ a_before_b plain true 3 (Some "a")
               {| executed_macros := ∅; world := true; trace := [] |} in
  run.1 = Raised FileNotFoundError
  ∧ last (trace run.2) = Some (Info (CallingMacro (PStr "b"))).
Proof. vm_compute. done. Qed.

(** ** Instances *)


Lemma call_stack_balanced_witness :
  let run := execute_macro (const_run failing) (const_file (Doc outer_inner)) clock ∅
               a_before_b plain true 3 "a" (PList [call "missing"; call "b"; PStr "cmd"])
               fresh in
  run.1 = Returned ∧ executed_macros run.2 = executed_macros fresh.
Proof.
  intros run. split; [vm_compute; reflexivity|].
  apply (call_stack_balanced (const_run failing) (const_file (Doc outer_inner)) clock ∅
           a_before_b plain true 3 "a" (PList [call "missing"; call "b"; PStr "cmd"])
           fresh run.2).
  vm_compute. reflexivity.
Defined.

Lemma validation_error_is_fatal_witness :
  execute_macro (const_run ok) (const_file Absent) clock ∅ a_before_b plain true 1 "a"
    (PDict [("commands", PList [PStr "cmd"]); ("env", PDict [("X", PInt 1)])]) fresh
  = (Exited 1,
     log (Error (InvalidDefinition (EnvValueNotStr "X" "a" "int")))
       (log (Info (ExecutingMacro "a")) (set_stack ({["a"]} ∪ ∅) fresh))).
Proof.
  destruct (validation_error_is_fatal (const_run ok) (const_file Absent) clock ∅
              a_before_b plain true 0 "a"
              (PDict [("commands", PList [PStr "cmd"]); ("env", PDict [("X", PInt 1)])])
              fresh) as (_ & Hfatal & _).
  - apply not_elem_of_empty.
  - destruct (Hfatal (EnvValueNotStr "X" "a" "int") eq_refl) as (_ & Hrun & _).
    exact Hrun.
Defined.

Lemma dry_run_never_invokes_witness :
  invocations
    (trace (execute_macro (const_run failing) (const_file (Doc outer_inner)) clock ∅
              a_before_b dry false 3 "a"
              (PList [PStr "cmd"; call "b"]) fresh).2) = [].
Proof.
  apply (dry_run_never_invokes (const_run failing) (const_file (Doc outer_inner)) clock ∅
           a_before_b dry false 3 "a" (PList [PStr "cmd"; call "b"]) fresh).
  reflexivity.
Defined.

Lemma call_reads_file_again_witness :
  let yaml := removable_file caller_callee in
  let clk := λ _ : bool, "2024-01-01 00:00:00" in
  let rec := execute_macro removing_run yaml clk ∅ a_before_b plain true 1 in
  let present := {| executed_macros := ∅; world := true; trace := [] |} in
  let gone := {| executed_macros := ∅; world := false; trace := [] |} in
  run_commands removing_run yaml clk plain true rec [call "b"; PStr "cmd"] ∅ 0
    [call "b"; PStr "cmd"] gone
  = (Raised FileNotFoundError, log (Info (CallingMacro (PStr "b"))) gone)
  ∧ run_step removing_run yaml clk plain true rec [call "b"; PStr "cmd"] ∅ 0
      (call "b") present
    = rec "b" (PList [PStr "echo b"]) (log (Info (CallingMacro (PStr "b"))) present)
  ∧ (main_run removing_run yaml clk ∅ a_before_b plain true 3 (Some "a") present).1
    = Raised FileNotFoundError.
Proof.
  intros yaml clk rec present gone.
  destruct (call_reads_file_again removing_run yaml clk ∅ a_before_b plain true rec
              [call "b"; PStr "cmd"] ∅ 0 [("call", PStr "b")] "b" [PStr "cmd"] gone)
    as (Habsent & _ & _); [reflexivity|].
  destruct (call_reads_file_again removing_run yaml clk ∅ a_before_b plain true rec
              [call "b"; PStr "cmd"] ∅ 0 [("call", PStr "b")] "b" [PStr "cmd"] present)
    as (_ & Hpresent & Hmain); [reflexivity|].
  split_and!.
  - apply Habsent. reflexivity.
  - apply (Hpresent
             [("a", PList [PStr "rm runner.yaml"; call "b"]);
              ("b", PList [PStr "echo b"])]
             [("a", PList [PStr "rm runner.yaml"; call "b"]);
              ("b", PList [PStr "echo b"])]).
    + reflexivity.
    + left. split; reflexivity.
  - apply (Hmain 1%nat
             [("a", PList [PStr "rm runner.yaml"; call "b"]);
              ("b", PList [PStr "echo b"])]
             "a" (PStr "rm runner.yaml") "done" EmptyString false present).
    + discriminate.
    + reflexivity.
    + reflexivity.
    + reflexivity.
    + reflexivity.
    + reflexivity.
    + reflexivity.
    + reflexivity.
Defined.

Lemma unvalidated_step_witness :
  validate_macro_definition "a" (PList [PInt 7]) = Ok true
  ∧ run_step (const_run (ExecException "TypeError")) (const_file Absent) clock plain
      false (λ _ _ st, (Returned, st)) [PInt 7] ∅ 0 (PInt 7) fresh
    = (Exited 1,
       log (Error (ErrorExecuting (PInt 7) "TypeError"))
         (log_command clock (PInt 7) EmptyString "TypeError"
            (set_world tt
               (log (Invoke (PInt 7) ∅)
                  (log (Info (RunningCommand 1 1 (PInt 7))) fresh))))).
Proof.
  destruct (unvalidated_step (const_run (ExecException "TypeError")) (const_file Absent)
              clock plain false (λ _ _ st, (Returned, st)) "a" [PInt 7] []
              [PInt 7] ∅ 0 (PInt 7) fresh "TypeError" tt) as (Hlist & _ & _ & Hstep).
  - apply elem_of_cons. by left.
  - reflexivity.
  - reflexivity.
  - reflexivity.
  - reflexivity.
  - split; [exact Hlist|exact Hstep].
Defined.

Lemma command_log_block_witness :
  has_tag ERROR (log_block (show (PStr "cmd")) (logged_output "done")
                   (logged_error EmptyString)) = true
  ↔ strip EmptyString ≠ EmptyString.
Proof.
  destruct (command_log_block (const_run ok) clock plain false show [PStr "cmd"] ∅ 0%nat
              (PStr "cmd") fresh 0 "done" EmptyString tt) as (_ & _ & _ & _ & _ & H).
  - reflexivity.
  - reflexivity.
  - exact H.
Defined.

(** * Further properties of the engine *)

Section EngineProperties.

Set Default Proof Using "Type".

Context {W : Type}.
Variable run_cmd : pyval → gmap string string → W → exec_result * W.
Variable runner_yaml : W → file_state.
Variable now : W → string.
Variable environ : gmap string string.
Variable set_iter : gset string → list string.
Variable logger : Logger.
Variable continue_on_error : bool.

Local Abbreviation state := (@state W).
Local Abbreviation literal := (run_literal run_cmd now logger continue_on_error).
Local Abbreviation call_step := (run_call runner_yaml continue_on_error).
Local Abbreviation step := (run_step run_cmd runner_yaml now logger continue_on_error).
Local Abbreviation loop := (run_commands run_cmd runner_yaml now logger continue_on_error).
Local Abbreviation execute :=
  (execute_macro run_cmd runner_yaml now environ set_iter logger continue_on_error).
Local Abbreviation run_main :=
  (main_run run_cmd runner_yaml now environ set_iter logger continue_on_error).
Local Abbreviation explained := (exit_explained logger continue_on_error).

Ltac split_tests :=
  repeat match goal with
         | |- context [match ?x with _ => _ end] => destruct x eqn:?
         | |- context [if ?x then _ else _] => destruct x eqn:?
         end.

(** ** Exit statuses *)

Lemma run_literal_exit commands env i c (st : state) :
  explained (literal commands env i c st).
Proof.
  unfold exit_explained, run_literal, log_command.
  destruct (dry_run logger) eqn:Hdry; [done|].
  destruct (run_cmd c env (world (log _ st))) as [[rc out err|detail] w]; simpl.
  - destruct (Z.eqb rc 0) eqn:Hrc; simpl; [done|].
    destruct continue_on_error eqn:Hcont; simpl; [done|].
    intros code [= <-]. apply Z.eqb_neq in Hrc. split; [done|]. right.
    split_and!; [done|done|apply last_snoc|]. exists c.
    destruct (verbose logger), (nonempty err); simpl;
      rewrite !elem_of_app, !list_elem_of_singleton; eauto 10.
  - destruct continue_on_error; simpl; [done|].
    intros code [= <-]. split; [done|by left].
Qed.

Lemma run_step_exit rec commands env i c (st : state) :
  (∀ n d st, explained (rec n d st)) →
  explained (step rec commands env i c st).
Proof.
  intros Hrec. unfold run_step. destruct (is_call c); [|apply run_literal_exit].
  unfold run_call. split_tests; try apply Hrec; intros code [= <-]; by split; [|left].
Qed.

Lemma run_commands_exit rec commands env i rest (st : state) :
  (∀ n d st, explained (rec n d st)) →
  explained (loop rec commands env i rest st).
Proof.
  intros Hrec. revert i st. induction rest as [|c rest IH]; intros i st; simpl.
  - intros code [=].
  - pose proof (run_step_exit rec commands env i c st Hrec) as Hstep.
    destruct (step rec commands env i c st) as [[] st1]; [apply IH|done..].
Qed.

Lemma execute_macro_exit fuel n d (st : state) : explained (execute fuel n d st).
Proof.
  revert n d st. induction fuel as [|fuel IH]; intros n d st; simpl.
  - intros code [=].
  - split_tests; try (intros code [= <-]; by split; [|left]); try (intros code [=]).
    all: match goal with
         | H : loop ?r ?cs ?e ?i ?l ?s = _ |- _ =>
             pose proof (run_commands_exit r cs e i l s IH) as Hloop;
             rewrite H in Hloop; exact Hloop
         end.
Qed.

(** ** Runs that return *)

Lemma problems_snoc (t : list event) e :
  is_problem e = false → problems (t ++ [e]) = problems t.
Proof.
  intros He. unfold problems. rewrite List.filter_app. simpl. rewrite He.
  apply app_nil_r.
Qed.

Ltac drop_fine := simpl; rewrite ?problems_snoc by done.

Lemma run_literal_tidy commands env i c (st st' : state) :
  continue_on_error = false →
  literal commands env i c st = (Returned, st') →
  problems (trace st') = problems (trace st).
Proof.
  intros Hcont. unfold run_literal, log_command. rewrite Hcont.
  split_tests; intros [= <-]; by drop_fine.
Qed.

Lemma run_step_tidy rec commands env i c (st st' : state) :
  continue_on_error = false → tidy rec →
  step rec commands env i c st = (Returned, st') →
  problems (trace st') = problems (trace st).
Proof.
  intros Hcont Hrec. unfold run_step. destruct (is_call c).
  - unfold run_call. rewrite Hcont. split_tests; try done.
    intros H. apply Hrec in H. rewrite H. by drop_fine.
  - by apply run_literal_tidy.
Qed.

Lemma run_commands_tidy rec commands env i rest (st st' : state) :
  continue_on_error = false → tidy rec →
  loop rec commands env i rest st = (Returned, st') →
  problems (trace st') = problems (trace st).
Proof.
  intros Hcont Hrec. revert i st.
  induction rest as [|c rest IH]; intros i st; simpl; [by intros [= <-]|].
  destruct (step rec commands env i c st) as [[] st1] eqn:Hstep; try done.
  intros H. apply IH in H. rewrite H. by eapply run_step_tidy.
Qed.

Lemma execute_macro_tidy fuel : continue_on_error = false → tidy (execute fuel).
Proof.
  intros Hcont. induction fuel as [|fuel IH]; intros n d st st'; simpl; [done|].
  destruct (decide (n ∈ executed_macros st)); [done|].
  destruct (validate_macro_definition n d); [|done].
  destruct (normalize environ d) as [[commands env]|]; [|done].
  destruct (loop _ _ _ _ _ _) as [[] st1] eqn:Hloop; try done.
  intros [= <-]. apply run_commands_tidy in Hloop; [|done..].
  drop_fine. rewrite Hloop. by drop_fine.
Qed.

(** ** Macros of literal commands *)

Lemma run_literal_continues commands env i c (st : state) :
  continue_on_error = true → dry_run logger = false →
  ∃ st', literal commands env i c st = (Returned, st')
    ∧ invocations (trace st') = invocations (trace st) ++ [(c, env)]
    ∧ executed_macros st' = executed_macros st.
Proof.
  intros Hcont Hdry. unfold run_literal, log_command. rewrite Hcont, Hdry.
  simpl. split_tests; (eexists; split_and!; [done| |done]); simpl;
    rewrite !invocations_app; simpl; by rewrite ?app_nil_r.
Qed.

Lemma run_commands_literals rec commands env i rest (st : state) :
  continue_on_error = true → dry_run logger = false →
  Forall (λ c, is_call c = false) rest →
  ∃ st', loop rec commands env i rest st = (Returned, st')
    ∧ invocations (trace st')
      = invocations (trace st) ++ ((λ c, (c, env)) <$> rest)
    ∧ executed_macros st' = executed_macros st.
Proof.
  intros Hcont Hdry Hall. revert i st.
  induction Hall as [|c rest Hc Hall IH]; intros i st; simpl.
  - exists st. by rewrite app_nil_r.
  - unfold run_step. rewrite Hc.
    destruct (run_literal_continues commands env i c st Hcont Hdry)
      as (st1 & -> & Hinv1 & Hstack1).
    destruct (IH (S i) st1) as (st' & -> & Hinv & Hstack).
    exists st'. split_and!; [done| |congruence].
    rewrite Hinv, Hinv1. by rewrite <- app_assoc.
Qed.

Lemma run_commands_dry_literals rec commands env i rest (st : state) :
  dry_run logger = true →
  Forall (λ c, is_call c = false) rest →
  ∃ st', loop rec commands env i rest st = (Returned, st')
    ∧ would_execute (trace st') = would_execute (trace st) ++ rest
    ∧ executed_macros st' = executed_macros st.
Proof.
  intros Hdry Hall. revert i st.
  induction Hall as [|c rest Hc Hall IH]; intros i st; simpl.
  - exists st. by rewrite app_nil_r.
  - unfold run_step. rewrite Hc. rewrite run_literal_dry by done.
    match goal with
    | |- context [loop rec commands env (S i) rest ?s] =>
        destruct (IH (S i) s) as (st' & -> & Hwould & Hstack)
    end.
    exists st'. split_and!; [done| |done].
    rewrite Hwould. unfold would_execute. simpl.
    rewrite !omap_app. simpl. by rewrite app_nil_r, <- app_assoc.
Qed.

(** ** The environment of a macro *)



(** ** The two layouts of the macro file *)

Lemma run_commands_ext (yaml1 yaml2 : W → file_state) rec1 rec2
    commands env i rest (st : state) :
  (∀ w, load_macros (yaml1 w) = load_macros (yaml2 w)) →
  (∀ n d st, rec1 n d st = rec2 n d st) →
  run_commands run_cmd yaml1 now logger continue_on_error rec1 commands env i rest st
  = run_commands run_cmd yaml2 now logger continue_on_error rec2 commands env i rest st.
Proof.
  intros Hload Hrec. revert i st.
  induction rest as [|c rest IH]; intros i st; simpl; [done|].
  assert (run_step run_cmd yaml1 now logger continue_on_error rec1 commands env i c st
          = run_step run_cmd yaml2 now logger continue_on_error rec2 commands env i c st)
    as ->.
  { unfold run_step, run_call. rewrite Hload.
    destruct (is_call c); [|done]. split_tests; by rewrite ?Hrec. }
  destruct (run_step _ _ _ _ _ _ _ _ _ _ _) as [[] st1]; by rewrite ?IH.
Qed.

Lemma execute_macro_ext (yaml1 yaml2 : W → file_state) fuel n d (st : state) :
  (∀ w, load_macros (yaml1 w) = load_macros (yaml2 w)) →
  execute_macro run_cmd yaml1 now environ set_iter logger continue_on_error fuel n d st
  = execute_macro run_cmd yaml2 now environ set_iter logger continue_on_error fuel n d st.
Proof.
  intros Hload. revert n d st.
  induction fuel as [|fuel IH]; intros n d st; simpl; [done|].
  destruct (decide (n ∈ executed_macros st)); [done|].
  destruct (validate_macro_definition n d); [|done].
  destruct (normalize environ d) as [[commands env]|]; [|done].
  by rewrite (run_commands_ext yaml1 yaml2 _ _ _ _ _ _ _ Hload IH).
Qed.

(** ** Validation of the environment *)

Lemma check_env_values_first macro_name items k n ty :
  check_env_values macro_name items = Raise (EnvValueNotStr k n ty) →
  ∃ before v after, items = before ++ (k, v) :: after
    ∧ Forall (λ kv, is_str kv.2 = true) before
    ∧ is_str v = false ∧ ty = type_name v ∧ n = macro_name.
Proof.
  induction items as [|[k' v'] items IH]; simpl; [done|].
  destruct (is_str v') eqn:Hv'.
  - intros (before & v & after & -> & Hbefore & Hv & Hty & Hn)%IH.
    exists ((k', v') :: before), v, after. split_and!; try done.
    by constructor.
  - intros [= <- <- <-]. by exists [], v', items.
Qed.

(** ** Summary *)

Lemma lookup_macro_in_list l name :
  lookup_macro (PList l) (PStr name) = NotFound
  ∨ lookup_macro (PList l) (PStr name) = LookupRaises TypeError.
Proof. simpl. destruct (list_contains (PStr name) l); [by right|by left]. Qed.

Lemma omap_snoc_none {A B} (f : A → option B) (t : list A) x :
  f x = None → omap f (t ++ [x]) = omap f t.
Proof. intros Hx. rewrite omap_app. simpl. rewrite Hx. apply app_nil_r. Qed.

Lemma lookup_macro_unmodelled all_macros called :
  lookup_macro all_macros called = LookupUnmodelled → ∃ l, all_macros = PList l.
Proof. unfold lookup_macro. split_tests; try done; intros _; by eexists. Qed.

Lemma run_literal_modelled commands env i c (st : state) :
  (literal commands env i c st).1 ≠ Unmodelled.
Proof. unfold run_literal. split_tests; done. Qed.

Lemma run_commands_modelled file rec commands env i rest (st : state) :
  (∀ w, runner_yaml w = file) →
  (∀ l, load_macros file ≠ Ok (PList l)) →
  (∀ n d st, (rec n d st).1 ≠ Unmodelled) →
  (loop rec commands env i rest st).1 ≠ Unmodelled.
Proof.
  intros Hstatic Htable Hrec. revert i st.
  induction rest as [|c rest IH]; intros i st; simpl; [done|].
  assert ((step rec commands env i c st).1 ≠ Unmodelled) as Hstep.
  { unfold run_step. destruct (is_call c); [|apply run_literal_modelled].
    unfold run_call. simpl. rewrite Hstatic.
    destruct (load_macros file) as [table|] eqn:Hload; [|done].
    destruct (lookup_macro table (call_target c)) eqn:Hlook; try done.
    - by destruct continue_on_error.
    - apply lookup_macro_unmodelled in Hlook as [l ->]. by destruct (Htable l). }
  destruct (step rec commands env i c st) as [[] st1]; [apply IH|done..].
Qed.

Lemma execute_macro_modelled file fuel n d (st : state) :
  (∀ w, runner_yaml w = file) →
  (∀ l, load_macros file ≠ Ok (PList l)) →
  (execute fuel n d st).1 ≠ Unmodelled.
Proof.
  intros Hstatic Htable. revert n d st.
  induction fuel as [|fuel IH]; intros n d st; simpl; [done|].
  destruct (decide (n ∈ executed_macros st)); [done|].
  destruct (validate_macro_definition n d); [|done].
  destruct (normalize environ d) as [[commands env]|]; [|done].
  match goal with
  | |- context [loop ?r ?cs ?e ?i ?l ?s] =>
      pose proof (run_commands_modelled file r cs e i l s Hstatic Htable IH) as Hloop;
      destruct (loop r cs e i l s) as [[] st1]
  end; done.
Qed.

(** X1. With a macro file that stays the same during the run and whose
    table is not a sequence, a recursion depth above the number of names in
    the table is enough for every call of [execute_macro] and for the [run]
    command: the run returns, exits or ends with an uncaught exception,
    however the macros call each other. *)
Theorem run_terminates file fuel (st : state) :
  (∀ w, runner_yaml w = file) →
  (∀ l, load_macros file ≠ Ok (PList l)) →
  (size (table_names file) + 1 < fuel)%nat →
  (∀ n d, ended (execute fuel n d st).1)
  ∧ (∀ name, ended (run_main fuel name st).1).
Proof.
  intros Hstatic Htable Hfuel.
  assert (∀ n d st, ended (execute fuel n d st).1) as Hexec.
  { intros n d st0.
    pose proof (enough_fuel run_cmd runner_yaml now environ set_iter logger
                  continue_on_error file Hstatic fuel n d st0 Hfuel) as Hfuel'.
    pose proof (execute_macro_modelled file fuel n d st0 Hstatic Htable) as Hmod.
    by destruct (execute fuel n d st0) as [[] st1]. }
  split; [done|]. intros name. unfold main_run. rewrite Hstatic.
  destruct (load_macros file) as [table|e] eqn:Hload; [|by destruct e].
  destruct name as [[|a name]|]; try done.
  destruct (lookup_macro table (PStr (String a name))) eqn:Hlook;
    first [done | apply Hexec | idtac].
  apply lookup_macro_unmodelled in Hlook as [l ->]. by destruct (Htable l).
Qed.

(** X2. Whenever [execute_macro] ends the run with [sys.exit], the status is
    not zero; and it is 1 unless continue-on-error is off and a command
    failed with that very status, the last report being that execution
    stops. *)
Theorem exit_status_explained fuel n d (st st' : state) code :
  execute fuel n d st = (Exited code, st') →
  code ≠ 0
  ∧ (code = 1
     ∨ (continue_on_error = false ∧ dry_run logger = false
        ∧ last (trace st') = Some (Error StoppingExecution)
        ∧ ∃ command, Error (CommandFailed code command) ∈ trace st')).
Proof.
  intros Hrun. pose proof (execute_macro_exit fuel n d st) as H.
  rewrite Hrun in H. by apply H.
Qed.

(** X3. With continue-on-error off, a call of [execute_macro] that returns
    has reported no warning and no error on the way, apart from the echo
    of a command's stderr in verbose mode. *)
Theorem return_without_continue_is_clean fuel n d (st st' : state) :
  continue_on_error = false →
  execute fuel n d st = (Returned, st') →
  problems (trace st') = problems (trace st).
Proof. intros Hcont Hrun. by eapply execute_macro_tidy. Qed.

(** X4. With continue-on-error on, a macro given as a sequence of literal
    commands hands every one of them to the executor, once each, in order
    and with the process environment, whatever their exit statuses or
    exceptions; it then returns, its last report being that the macro
    completed successfully. *)
Theorem continue_runs_every_command fuel n l (st : state) :
  continue_on_error = true → dry_run logger = false →
  n ∉ executed_macros st →
  Forall (λ c, is_call c = false) l →
  ∃ st', execute (S fuel) n (PList l) st = (Returned, st')
    ∧ invocations (trace st')
      = invocations (trace st) ++ ((λ c, (c, environ)) <$> l)
    ∧ last (trace st') = Some (Info (MacroCompleted n))
    ∧ executed_macros st' = executed_macros st.
Proof.
  intros Hcont Hdry Hfresh Hall. simpl.
  destruct (decide (n ∈ executed_macros st)); [done|].
  match goal with
  | |- context [loop ?r ?cs ?e ?i ?l ?s] =>
      destruct (run_commands_literals r cs e i l s Hcont Hdry Hall)
        as (st1 & -> & Hinv & Hstack)
  end.
  eexists. split_and!; [done| | |]; simpl.
  - rewrite invocations_app, Hinv. simpl.
    rewrite invocations_app. simpl. by rewrite !app_nil_r.
  - apply last_snoc.
  - rewrite Hstack. simpl. by apply push_pop.
Qed.

(** X6. In dry-run mode a macro given as a sequence of literal commands
    reports each of them as what it would execute, in order, and returns,
    whatever continue-on-error is. *)
Theorem dry_run_lists_commands fuel n l (st : state) :
  dry_run logger = true →
  n ∉ executed_macros st →
  Forall (λ c, is_call c = false) l →
  ∃ st', execute (S fuel) n (PList l) st = (Returned, st')
    ∧ would_execute (trace st') = would_execute (trace st) ++ l.
Proof.
  intros Hdry Hfresh Hall. simpl.
  destruct (decide (n ∈ executed_macros st)); [done|].
  match goal with
  | |- context [loop ?r ?cs ?e ?i ?l ?s] =>
      destruct (run_commands_dry_literals r cs e i l s Hdry Hall)
        as (st1 & -> & Hwould & _)
  end.
  eexists. split; [done|]. simpl. unfold would_execute in *.
  rewrite omap_snoc_none by done. rewrite Hwould. simpl.
  by rewrite omap_snoc_none by done.
Qed.


(** X9. A step that calls a macro which is on the stack ends the loop with
    exit status 1 right after the report of the circular call: the called
    definition is neither validated nor run, no later step is reached, and
    continue-on-error makes no difference. *)
Theorem call_of_running_macro_exits fuel commands env i c rest (st : state)
    all_macros m def :
  is_call c = true →
  load_macros (runner_yaml (world st)) = Ok all_macros →
  lookup_macro all_macros (call_target c) = Found m def →
  m ∈ executed_macros st →
  loop (execute (S fuel)) commands env i (c :: rest) st
  = (Exited 1,
     log (Error (CircularCall m (set_iter (executed_macros st))))
       (log (Info (CallingMacro (call_target c))) st)).
Proof.
  intros Hc Hload Hlook Hin. cbn [run_commands].
  unfold run_step, run_call. rewrite Hc. cbn [world log]. rewrite Hload, Hlook.
  by rewrite circular_call_exits.
Qed.

(** X10. When the root mapping of the macro file has a key [macros] whose
    value is a sequence (a macro of that name in the flat layout), the
    [run] command can start no macro at all: it exits with status 1 or 2
    or raises [TypeError], and neither a macro nor a command is run. *)
Theorem macros_key_hides_all fuel name (st : state) d l :
  runner_yaml (world st) = Doc (PDict d) →
  dict_get "macros" d = Some (PList l) →
  let r := run_main fuel name st in
  (r.1 = Exited 1 ∨ r.1 = Exited 2 ∨ r.1 = Raised TypeError)
  ∧ invocations (trace r.2) = invocations (trace st)
  ∧ started (trace r.2) = started (trace st).
Proof.
  intros Hfile Hkey. unfold main_run. rewrite Hfile. simpl. rewrite Hkey.
  unfold invocations, started.
  destruct name as [[|a name]|]; [| |];
    try (destruct (lookup_macro_in_list l (String a name)) as [-> | ->]);
    split_tests; simpl; rewrite ?omap_snoc_none by done; eauto.
Qed.

(** X11. The two layouts of the macro file run alike: with a table that has
    no macro named [macros], the [run] command behaves the same on a file
    that holds the table under the key [macros], whatever other keys stand
    beside it, as on a file that holds the table at its root. *)
Theorem wrapped_table_runs_the_same (yaml1 yaml2 : W → file_state) table others
    fuel name (st : state) :
  dict_get "macros" table = None →
  (∀ w, yaml1 w = Doc (PDict (("macros", PDict table) :: others))) →
  (∀ w, yaml2 w = Doc (PDict table)) →
  main_run run_cmd yaml1 now environ set_iter logger continue_on_error fuel name st
  = main_run run_cmd yaml2 now environ set_iter logger continue_on_error fuel name st.
Proof.
  intros Hkey H1 H2.
  assert (∀ w, load_macros (yaml1 w) = load_macros (yaml2 w)) as Hload.
  { intros w. rewrite H1, H2. simpl. by rewrite Hkey. }
  unfold main_run. rewrite Hload.
  destruct (load_macros (yaml2 (world st))); [|done].
  split_tests; first [done | by apply execute_macro_ext].
Qed.

(** X12. When validation rejects a definition for an [env] value that is
    not a string, the key it names is that of the first such value in the
    order of the mapping: every entry before it holds a string. *)
Theorem first_offending_env_key macro_name macro_def k n ty :
  validate_macro_definition macro_name macro_def = Raise (EnvValueNotStr k n ty) →
  ∃ d before v after,
    macro_def = PDict d
    ∧ dict_get "env" d = Some (PDict (before ++ (k, v) :: after))
    ∧ Forall (λ kv, is_str kv.2 = true) before
    ∧ is_str v = false ∧ ty = type_name v ∧ n = macro_name.
Proof.
  unfold validate_macro_definition. split_tests; intros [= Herr]; subst.
  match goal with
  | H : check_env_values _ _ = Raise _ |- _ =>
      apply check_env_values_first in H
        as (before & v & after & -> & Hbefore & Hv & -> & ->)
  end.
  by eexists _, before, v, after.
Qed.

(** X13. In a macro whose literal commands are strings that differ from
    one another, the literal command at position [j] among them is
    announced with index [j + 1], which is at most the total. *)
Theorem distinct_commands_numbered_in_order commands env i j c (st : state) :
  (∀ c', c' ∈ actual_commands commands → is_str c' = true) →
  NoDup (actual_commands commands) →
  actual_commands commands !! j = Some c →
  command_index commands i c = (j + 1)%nat
  ∧ (j + 1 ≤ total_commands commands)%nat
  ∧ ∃ later, trace (literal commands env i c st).2
      = trace st
        ++ Info (RunningCommand (j + 1) (total_commands commands) c) :: later.
Proof.
  intros Hstr Hdup Hj.
  assert (command_index commands i c = (j + 1)%nat) as Hindex.
  { apply command_index_position; [done| |].
    - assert (is_str c = true) as Hc by (eapply Hstr, list_elem_of_lookup_2, Hj).
      destruct c; try done. simpl. apply String.eqb_refl.
    - intros j' c' Hlt Hj'.
      assert (is_str c = true) as Hc by (eapply Hstr, list_elem_of_lookup_2, Hj).
      assert (is_str c' = true) as Hc' by (eapply Hstr, list_elem_of_lookup_2, Hj').
      destruct c, c'; try done. simpl. apply String.eqb_neq. intros ->.
      assert (j' = j); [|lia]. by eapply NoDup_lookup. }
  split_and!; [done| |].
  - apply lookup_lt_Some in Hj. unfold total_commands. lia.
  - unfold run_literal, log_command. rewrite Hindex.
    split_tests; simpl; rewrite <- ?app_assoc; simpl; by eexists.
Qed.

(** X14. What goes wrong before a macro starts is fatal whatever
    continue-on-error is: when the macro file cannot be loaded, with or
    without a macro name on the command line, and when the table does not
    have the macro, the [run] command exits with status 1 and neither a
    macro nor a command is run. *)
Theorem top_level_failures_are_fatal fuel name (st : state) :
  (∃ e, load_macros (runner_yaml (world st)) = Raise e)
  ∨ (∃ all_macros n,
       load_macros (runner_yaml (world st)) = Ok all_macros
       ∧ name = Some n ∧ n ≠ EmptyString
       ∧ lookup_macro all_macros (PStr n) = NotFound) →
  let r := run_main fuel name st in
  r.1 = Exited 1
  ∧ invocations (trace r.2) = invocations (trace st)
  ∧ started (trace r.2) = started (trace st).
Proof.
  unfold main_run, invocations, started.
  intros [[e ->]|(table & n & -> & -> & Hn & ->)].
  - destruct e; simpl; by rewrite ?omap_snoc_none by done.
  - destruct n; [done|]. destruct (py_truth table); simpl;
      by rewrite ?omap_snoc_none by done.
Qed.

End EngineProperties.

(** * Properties of the logger and of the [list] command *)

Section LoggerProperties.

Set Default Proof Using "Type".

Variable dirname : string → string.
Variable makedirs_fails : string → bool.
Variable open_error : string → option string.
Variable write_error : list string → string → option string.
Variable py_str : pyval → string.

Local Abbreviation perform := (LoggerMethods.perform write_error).
Local Abbreviation replay := (LoggerMethods.replay write_error).
Local Abbreviation init :=
  (LoggerMethods.init dirname makedirs_fails open_error write_error).

Ltac split_tests :=
  repeat match goal with
         | |- context [match ?x with _ => _ end] => destruct x eqn:?
         | |- context [if ?x then _ else _] => destruct x eqn:?
         end.

Ltac unfold_logger :=
  unfold LoggerMethods.perform, LoggerMethods.info, LoggerMethods.error,
    LoggerMethods.warn, LoggerMethods.log_command, LoggerMethods._write_to_file,
    print_out, print_err.

Lemma replay_cons self c calls s :
  replay self (c :: calls) s = replay self calls (perform self c s).
Proof. reflexivity. Qed.

Lemma call_errors_cons c calls :
  call_errors (c :: calls) = call_errors [c] ++ call_errors calls.
Proof. unfold call_errors. by rewrite <- omap_app. Qed.

(** ** The console *)

Lemma perform_stdout write_error' self self' c s s' :
  verbose self = verbose self' → stdout s = stdout s' →
  stdout (perform self c s)
  = stdout (LoggerMethods.perform write_error' self' c s').
Proof.
  intros Hverbose Hout. destruct c; unfold_logger; rewrite <- ?Hverbose;
    split_tests; simpl; by rewrite ?Hout.
Qed.

(** X15. What a sequence of logger calls prints on stdout depends on the
    verbose flag alone: it is the same with no log file, with a log file,
    and with a log file every write to which fails. *)
Theorem console_independent_of_file write_error' self self' calls s s' :
  verbose self = verbose self' → stdout s = stdout s' →
  stdout (replay self calls s)
  = stdout (LoggerMethods.replay write_error' self' calls s').
Proof.
  intros Hverbose. revert s s'.
  induction calls as [|c calls IH]; intros s s' Hout; [done|].
  rewrite replay_cons. apply IH. by apply perform_stdout.
Qed.

Lemma perform_closed self c s :
  file_handle self = false →
  file (perform self c s) = file s
  ∧ stderr (perform self c s) = stderr s ++ call_errors [c].
Proof.
  intros Hclosed. destruct c; unfold_logger; rewrite Hclosed;
    split_tests; simpl; by rewrite ?app_nil_r.
Qed.

(** X16. A logger without an open file never touches the file, and puts
    on stderr the [error] calls and nothing else. *)
Theorem closed_logger_keeps_file self calls s :
  file_handle self = false →
  file (replay self calls s) = file s
  ∧ stderr (replay self calls s) = stderr s ++ call_errors calls.
Proof.
  intros Hclosed. revert s.
  induction calls as [|c calls IH]; intros s; [by rewrite app_nil_r|].
  rewrite replay_cons.
  destruct (IH (perform self c s)) as [-> ->].
  destruct (perform_closed self c s Hclosed) as [-> ->].
  split; [done|]. rewrite <- app_assoc. f_equal.
  unfold call_errors. simpl. by destruct c.
Qed.

Lemma perform_failing self c s e :
  file_handle self = true →
  (∀ content chunk, write_error content chunk = Some e) →
  file (perform self c s) = file s
  ∧ stderr (perform self c s) = stderr s ++ failing_stderr e [c].
Proof.
  intros Hopen Hfail. destruct c; unfold_logger; rewrite Hopen, ?Hfail;
    split_tests; simpl; rewrite <- ?app_assoc; split; done.
Qed.

Lemma failing_stderr_cons e c calls :
  failing_stderr e (c :: calls) = failing_stderr e [c] ++ failing_stderr e calls.
Proof. unfold failing_stderr. by rewrite <- bind_app. Qed.

(** X17. When every write to the open log file raises with the same text,
    a sequence of logger calls leaves the file as it was, and stderr grows
    by exactly these lines, in order: for an [error] call its own line,
    and after every call the line [[ERROR] Could not write to log file:]
    with the text of the exception. *)
Theorem failed_writes_are_reported self calls s e :
  file_handle self = true →
  (∀ content chunk, write_error content chunk = Some e) →
  file (replay self calls s) = file s
  ∧ stderr (replay self calls s) = stderr s ++ failing_stderr e calls.
Proof.
  intros Hopen Hfail. revert s.
  induction calls as [|c calls IH]; intros s; [simpl; by rewrite app_nil_r|].
  rewrite replay_cons.
  destruct (IH (perform self c s)) as [-> ->].
  destruct (perform_failing self c s e Hopen Hfail) as [-> ->].
  split; [done|]. by rewrite (failing_stderr_cons e c calls), app_assoc.
Qed.

(** ** The log file of a run *)

Lemma perform_event self ev s :
  (∀ content chunk, write_error content chunk = None) →
  let s' := LoggerMethods.replay write_error self (calls_of py_str [ev]) s in
  file s' = file s ++ ((λ r, r +:+ newline) <$> log_file py_str self [ev])
  ∧ stderr s' = stderr s ++ error_lines py_str [ev]
  ∧ (verbose self = false → stdout s' = stdout s ++ report_lines py_str [ev]).
Proof.
  intros Hwrite. unfold log_file, calls_of, error_lines, report_lines.
  destruct ev as [m|m|m|ts c out err|c env]; simpl; unfold_logger;
    destruct (file_handle self), (verbose self); simpl; rewrite ?Hwrite;
    try destruct (nonempty out); try destruct (nonempty err);
    simpl; rewrite ?Hwrite; simpl; rewrite ?app_nil_r; split_and!; done.
Qed.

Lemma replay_app self calls calls' s :
  replay self (calls ++ calls') s = replay self calls' (replay self calls s).
Proof. unfold LoggerMethods.replay. apply foldl_app. Qed.

(** X18. Played to a logger whose writes succeed, the reports of a run give
    a log file that grows by the records of the trace, one chunk each and
    each ended by a newline, when the file is open, and by nothing when it
    is not; stderr grows by the [error] reports; and without the verbose
    flag stdout grows by the [info] and [warn] reports. *)
Theorem log_file_of_trace self t s :
  (∀ content chunk, write_error content chunk = None) →
  let s' := replay self (calls_of py_str t) s in
  file s' = file s ++ ((λ r, r +:+ newline) <$> log_file py_str self t)
  ∧ stderr s' = stderr s ++ error_lines py_str t
  ∧ (verbose self = false → stdout s' = stdout s ++ report_lines py_str t).
Proof.
  intros Hwrite. revert s.
  induction t as [|ev t IH]; intros s.
  - simpl. unfold log_file. destruct (file_handle self); simpl;
      by rewrite !app_nil_r.
  - change (ev :: t) with ([ev] ++ t). unfold calls_of.
    rewrite omap_app, replay_app.
    destruct (perform_event self ev s Hwrite) as (Hf & He & Ho).
    destruct (IH (replay self (calls_of py_str [ev]) s)) as (Hf' & He' & Ho').
    fold (calls_of py_str t). fold (calls_of py_str [ev]).
    cbn zeta. rewrite Hf', He', Hf, He.
    unfold log_file, error_lines, report_lines in *.
    split_and!.
    + destruct (file_handle self); [|by rewrite !app_nil_r].
      by rewrite bind_app, fmap_app, app_assoc.
    + by rewrite omap_app, app_assoc.
    + intros Hquiet. rewrite Ho', Ho by done.
      by rewrite omap_app, app_assoc.
Qed.

(** ** Construction *)

(** X19. [Logger.__init__] lets no failure of making the directory or of
    opening the file escape, and never prints on stdout. It keeps the two
    flags. The file is open afterwards exactly when a non-empty path was
    given, its directory is empty or could be made, and the file could be
    opened. With no path the streams are untouched; without an
    open file the file is untouched; and when the file is open and the
    write succeeds, the file gains the header and stderr gains nothing. *)
Theorem logger_init_outcome dry verb log_file timestamp s :
  let r := init dry verb log_file timestamp s in
  let header := (newline +:+ "--- Logging started at " +:+ timestamp +:+ " ---"
                 +:+ newline) +:+ newline in
  dry_run r.1 = dry ∧ verbose r.1 = verb
  ∧ stdout r.2 = stdout s
  ∧ (file_handle r.1 = true
     ↔ ∃ path, log_file = Some path ∧ path ≠ EmptyString
         ∧ (dirname path = EmptyString ∨ makedirs_fails (dirname path) = false)
         ∧ open_error path = None)
  ∧ (log_file = None ∨ log_file = Some EmptyString → r.2 = s)
  ∧ (file_handle r.1 = false → file r.2 = file s)
  ∧ (file_handle r.1 = true → write_error (file s) header = None →
       file r.2 = file s ++ [header] ∧ stderr r.2 = stderr s).
Proof.
  unfold LoggerMethods.init, LoggerMethods._write_to_file, print_err.
  destruct log_file as [[|a path]|]; cbn [nonempty];
    [|destruct (dirname (String a path)) as [|b dir] eqn:Hdir; cbn [nonempty andb];
      [|destruct (makedirs_fails (String b dir)) eqn:Hmk];
      try (destruct (open_error (String a path)) as [e|] eqn:Hopen;
           [|cbn [file_handle]; destruct (write_error _ _) as [e|] eqn:Hw])|];
    cbn [fst snd dry_run verbose file_handle stdout stderr file
         LoggerMethods.no_handle];
    (split_and!; [done|done|done|split|..]).
  all: try done.
  all: try (by intros [[=]|[=]]).
  all: try (intros (p & [= <-] & Hne & Hd & Ho); try done;
            try congruence; destruct Hd; congruence).
  all: try (intros _; exists (String a path); split_and!; try done;
            first [by left | by right; rewrite Hdir]).
  all: try congruence.
Qed.

(** ** The [list] command *)

Lemma info_stdout self m s :
  stdout (LoggerMethods.info write_error self m s) = stdout s ++ ["[INFO] " +:+ m].
Proof. unfold_logger. split_tests; done. Qed.

Lemma warn_stdout self m s :
  stdout (LoggerMethods.warn write_error self m s) = stdout s ++ ["[WARNING] " +:+ m].
Proof. unfold_logger. split_tests; done. Qed.

Lemma list_names_stdout self names s :
  stdout (list_names write_error self names s)
  = stdout s ++ ((λ k, "[INFO]   - " +:+ k) <$> names).
Proof.
  unfold list_names. revert s.
  induction names as [|k names IH]; intros s; simpl; [by rewrite app_nil_r|].
  rewrite IH, info_stdout. by rewrite <- app_assoc.
Qed.

(** X20. On a macro file that loads as a mapping, the [list] command prints
    the heading and then one line for each macro, in the order of the
    file, after a warning when there is none. It then returns with the log
    file closed, unless the log file is open and closing it raises: then
    the [OSError] goes uncaught and the handle stays set. *)
Theorem list_prints_table close_error runner_yaml self s d :
  load_macros runner_yaml = Ok (PDict d) →
  let r := main_list write_error close_error runner_yaml self s in
  stdout r.2
  = stdout s
    ++ (if py_truth (PDict d) then []
        else ["[WARNING] No macros found in runner.yaml file."])
    ++ "[INFO] Available macros:" :: ((λ k, "[INFO]   - " +:+ k) <$> d.*1)
  ∧ (file_handle self = false ∨ close_error (file r.2) = None →
       r.1.1 = Listed ∧ file_handle r.1.2 = false)
  ∧ (∀ e, file_handle self = true → close_error (file r.2) = Some e →
       r.1.1 = ListRaised "OSError" ∧ file_handle r.1.2 = true).
Proof.
  intros Hload. unfold main_list. rewrite Hload. cbn beta iota zeta.
  unfold close_and_return, LoggerMethods.close.
  match goal with
  | |- context [list_names write_error self d.*1 ?s0] =>
      set (s' := list_names write_error self d.*1 s0)
  end.
  assert (stdout s'
          = stdout s
            ++ (if py_truth (PDict d) then []
                else ["[WARNING] No macros found in runner.yaml file."])
            ++ "[INFO] Available macros:" :: ((λ k, "[INFO]   - " +:+ k) <$> d.*1))
    as Hout.
  { unfold s'. rewrite list_names_stdout, info_stdout.
    destruct (py_truth (PDict d)); simpl;
      rewrite ?warn_stdout, <- ?app_assoc; done. }
  destruct (file_handle self) eqn:Hopen;
    [destruct (close_error (file s')) as [e0|] eqn:Hclose|]; simpl;
    (split_and!; [done| |]).
  - intros [|]; congruence.
  - done.
  - done.
  - intros e. congruence.
  - done.
  - done.
Qed.

End LoggerProperties.

(** ** Instances *)

Import MoreExamples.

Lemma run_terminates_witness :
  ended (main_run (const_run ok) (const_file (Doc two_cycle)) clock ∅ a_before_b plain
           true 4 (Some "a") fresh).1.
Proof.
  destruct (run_terminates (const_run ok) (const_file (Doc two_cycle)) clock ∅
              a_before_b plain true (Doc two_cycle) 4 fresh) as [_ Hmain].
  - intros w. reflexivity.
  - intros l. discriminate.
  - vm_compute. lia.
  - apply Hmain.
Defined.

Lemma exit_status_explained_witness : (3 : Z) ≠ 0.
Proof.
  pose (run := execute_macro (const_run failing) (const_file Absent) clock ∅
                 a_before_b plain false 2 "a" twice fresh).
  destruct (exit_status_explained (const_run failing) (const_file Absent) clock ∅
              a_before_b plain false 2 "a" twice fresh run.2 3) as [Hcode _].
  - vm_compute. reflexivity.
  - exact Hcode.
Defined.

Lemma return_without_continue_is_clean_witness :
  problems
    (trace (execute_macro (const_run ok) (const_file (Doc outer_inner)) clock ∅
              a_before_b plain false 3 "a" (PList [call "b"; PStr "cmd"]) fresh).2)
  = problems (trace fresh).
Proof.
  apply (return_without_continue_is_clean (const_run ok) (const_file (Doc outer_inner))
           clock ∅ a_before_b plain false 3 "a" (PList [call "b"; PStr "cmd"]) fresh).
  - reflexivity.
  - vm_compute. reflexivity.
Defined.

Lemma continue_runs_every_command_witness :
  ∃ st', execute_macro (const_run failing) (const_file Absent) clock ∅ a_before_b
           plain true 1 "a" (PList [PStr "cmd1"; PStr "cmd2"]) fresh
         = (Returned, st')
    ∧ invocations (trace st')
      = invocations (trace fresh) ++ ((λ c, (c, ∅)) <$> [PStr "cmd1"; PStr "cmd2"])
    ∧ last (trace st') = Some (Info (MacroCompleted "a"))
    ∧ executed_macros st' = executed_macros fresh.
Proof.
  apply (continue_runs_every_command (const_run failing) (const_file Absent) clock ∅
           a_before_b plain true 0 "a" [PStr "cmd1"; PStr "cmd2"] fresh).
  - reflexivity.
  - reflexivity.
  - apply not_elem_of_empty.
  - repeat constructor.
Defined.

Lemma dry_run_lists_commands_witness :
  ∃ st', execute_macro (const_run failing) (const_file Absent) clock ∅ a_before_b
           dry false 1 "a" (PList [PStr "cmd1"; PStr "cmd2"]) fresh
         = (Returned, st')
    ∧ would_execute (trace st')
      = would_execute (trace fresh) ++ [PStr "cmd1"; PStr "cmd2"].
Proof.
  apply (dry_run_lists_commands (const_run failing) (const_file Absent) clock ∅
           a_before_b dry false 0 "a" [PStr "cmd1"; PStr "cmd2"] fresh).
  - reflexivity.
  - apply not_elem_of_empty.
  - repeat constructor.
Defined.


Lemma call_of_running_macro_exits_witness :
  run_commands (const_run ok) (const_file (Doc two_cycle)) clock plain true
    (execute_macro (const_run ok) (const_file (Doc two_cycle)) clock ∅ a_before_b
       plain true 1)
    [call "a"; PStr "cmd"] ∅ 0 [call "a"; PStr "cmd"] inside_a
  = (Exited 1,
     log (Error (CircularCall "a" (a_before_b (executed_macros inside_a))))
       (log (Info (CallingMacro (call_target (call "a")))) inside_a)).
Proof.
  apply (call_of_running_macro_exits (const_run ok) (const_file (Doc two_cycle)) clock
           ∅ a_before_b plain true 0 [call "a"; PStr "cmd"] ∅ 0 (call "a")
           [PStr "cmd"] inside_a two_cycle "a" (PList [call "b"])).
  - reflexivity.
  - reflexivity.
  - reflexivity.
  - apply elem_of_singleton. reflexivity.
Defined.

Lemma macros_key_hides_all_witness :
  started
    (trace (main_run (const_run ok) (const_file (Doc flat_with_macros)) clock ∅
              a_before_b plain true 3 (Some "build") fresh).2)
  = started (trace fresh).
Proof.
  destruct (macros_key_hides_all (const_run ok) (const_file (Doc flat_with_macros))
              clock ∅ a_before_b plain true 3 (Some "build") fresh
              [("build", PList [PStr "make"]); ("macros", PList [PStr "ls"])]
              [PStr "ls"]) as (_ & _ & Hstarted).
  - reflexivity.
  - reflexivity.
  - exact Hstarted.
Defined.

Lemma wrapped_table_runs_the_same_witness :
  main_run (const_run ok)
    (const_file (Doc (PDict [("macros", PDict table); ("version", PInt 1)])))
    clock ∅ a_before_b plain false 4 (Some "build") fresh
  = main_run (const_run ok) (const_file (Doc (PDict table)))
      clock ∅ a_before_b plain false 4 (Some "build") fresh.
Proof.
  apply (wrapped_table_runs_the_same (const_run ok) clock ∅ a_before_b plain false
           (const_file (Doc (PDict [("macros", PDict table); ("version", PInt 1)])))
           (const_file (Doc (PDict table))) table [("version", PInt 1)]
           4 (Some "build") fresh).
  - reflexivity.
  - intros w. reflexivity.
  - intros w. reflexivity.
Defined.

Lemma first_offending_env_key_witness :
  ∃ d before v after,
    bad_env = PDict d
    ∧ dict_get "env" d = Some (PDict (before ++ ("B", v) :: after))
    ∧ Forall (λ kv, is_str kv.2 = true) before
    ∧ is_str v = false ∧ "int" = type_name v ∧ "a" = "a".
Proof.
  apply (first_offending_env_key "a" bad_env "B" "a" "int").
  reflexivity.
Defined.

Lemma distinct_commands_numbered_in_order_witness :
  command_index [PStr "cmd1"; call "b"; PStr "cmd2"] 2 (PStr "cmd2") = 2%nat.
Proof.
  destruct (distinct_commands_numbered_in_order (const_run ok) clock plain false
              [PStr "cmd1"; call "b"; PStr "cmd2"] ∅ 2 1 (PStr "cmd2") fresh)
    as [Hindex _].
  - intros c' Hin. vm_compute in Hin.
    apply elem_of_cons in Hin as [->|Hin]; [reflexivity|].
    apply elem_of_cons in Hin as [->|Hin]; [reflexivity|].
    by apply elem_of_nil in Hin.
  - vm_compute. apply NoDup_cons. split.
    + intros Hin. apply list_elem_of_singleton in Hin. discriminate Hin.
    + apply NoDup_singleton.
  - reflexivity.
  - exact Hindex.
Defined.

Lemma top_level_failures_are_fatal_witness :
  (main_run (const_run ok) (const_file Absent) clock ∅ a_before_b plain true 3
     None fresh).1 = Exited 1.
Proof.
  destruct (top_level_failures_are_fatal (const_run ok) (const_file Absent) clock ∅
              a_before_b plain true 3 None fresh) as [Hexit _].
  - left. exists FileNotFoundError. reflexivity.
  - exact Hexit.
Defined.

Lemma console_independent_of_file_witness :
  stdout (LoggerMethods.replay writable plain calls no_streams)
  = stdout (LoggerMethods.replay disk_full closed
              calls {| stdout := []; stderr := ["earlier"]; file := ["old"] |}).
Proof.
  apply (console_independent_of_file writable disk_full plain closed calls no_streams
           {| stdout := []; stderr := ["earlier"]; file := ["old"] |}).
  - reflexivity.
  - reflexivity.
Defined.

Lemma closed_logger_keeps_file_witness :
  file (LoggerMethods.replay disk_full closed calls no_streams) = file no_streams
  ∧ stderr (LoggerMethods.replay disk_full closed calls no_streams)
    = stderr no_streams ++ call_errors calls.
Proof.
  apply (closed_logger_keeps_file disk_full closed calls no_streams).
  reflexivity.
Defined.

Lemma failed_writes_are_reported_witness :
  file (LoggerMethods.replay disk_full plain calls no_streams) = file no_streams
  ∧ stderr (LoggerMethods.replay disk_full plain calls no_streams)
    = stderr no_streams ++ failing_stderr "No space left on device" calls.
Proof.
  apply (failed_writes_are_reported disk_full plain calls no_streams
           "No space left on device").
  - reflexivity.
  - intros content chunk. reflexivity.
Defined.

Lemma log_file_of_trace_witness :
  let t := trace (main_run (const_run failing) (const_file (Doc (PDict table))) clock ∅
                    a_before_b plain true 4 (Some "build") fresh).2 in
  file (LoggerMethods.replay writable plain (calls_of show t) no_streams)
  = file no_streams ++ ((λ r, r +:+ newline) <$> log_file show plain t).
Proof.
  intros t.
  destruct (log_file_of_trace writable show plain t no_streams) as [Hfile _].
  - intros content chunk. reflexivity.
  - exact Hfile.
Defined.

Lemma list_prints_table_witness :
  let r := main_list disk_full (λ _, Some "No space left on device")
             (Doc (PDict table)) plain no_streams in
  stdout r.2 = ["[INFO] Available macros:"; "[INFO]   - build"; "[INFO]   - test"]
  ∧ r.1.1 = ListRaised "OSError".
Proof.
  destruct (list_prints_table disk_full (λ _, Some "No space left on device")
              (Doc (PDict table)) plain no_streams table)
    as (Hout & _ & Hraise).
  - reflexivity.
  - split; [exact Hout|].
    destruct (Hraise "No space left on device") as [Hlist _];
      [reflexivity|reflexivity|exact Hlist].
Defined.

Lemma logger_init_outcome_witness :
  let r := LoggerMethods.init (λ _, "logs") (λ _, false) (λ _, None) writable
             false true (Some "logs/run.log") "12:00" no_streams in
  file_handle r.1 = true
  ∧ file r.2
    = [(newline +:+ "--- Logging started at " +:+ "12:00" +:+ " ---" +:+ newline)
       +:+ newline].
Proof.
  destruct (logger_init_outcome (λ _, "logs") (λ _, false) (λ _, None) writable
              false true (Some "logs/run.log") "12:00" no_streams)
    as (_ & _ & _ & _ & _ & _ & Hopen).
  split; [reflexivity|].
  destruct Hopen as [Hfile _]; [reflexivity|reflexivity|exact Hfile].
Defined.
